(** * Object and query-option utilities of the ORM: a shallow embedding

    Sources: [src/lib/utils/object.ts] (merge, mergeDefaults, cloneDeep,
    flattenObjectDeep, defaults, camelizeObjectKeys) and [src/unnamed/part_000]
    (the format utilities: mapFinderOptions, mapOptionFieldNames,
    mapWhereFieldNames, getComplexKeys, combineTableNames, mapValueFieldNames,
    removeNullValuesFromHash).

    JavaScript values are modelled as trees: a plain object is an ordered list
    of own enumerable properties (insertion order, keys unique), an array a
    list of elements.  Non-plain objects (model instances, dates, ...) are
    opaque references [VInst]; functions carry whether they are native and the
    result of their [clone] method, if they have one.  Shared sub-objects and
    cycles are not modelled, and neither are inherited properties of
    [Object.prototype]. *)

From Stdlib Require Import String Ascii List ZArith Bool Lia.
Import ListNotations.
Set Warnings "-register-all".
Open Scope string_scope.
Open Scope list_scope.

(** ** Values *)

(** A symbol: [Symbol.for(k)] (identified by its registry key) or a unique
    [Symbol(desc)] (identified by its allocation number). *)
Inductive sym : Type :=
| SymFor (registryKey : string)
| SymUnique (description : string) (uid : nat).

(** A property key. *)
Inductive key : Type :=
| KStr (s : string)
| KSym (s : sym).

Inductive value : Type :=
| VUndef
| VNull
| VBool (b : bool)
| VNum (n : Z)
| VStr (s : string)
| VObj (props : list (key * value))
| VArr (elems : list value)
| VInst (ref : nat)
| VFun (ref : nat) (native : bool) (clone : option value).

Definition obj : Type := list (key * value).

Definition sym_eqb (a b : sym) : bool :=
  match a, b with
  | SymFor x, SymFor y => String.eqb x y
  | SymUnique d u, SymUnique d' u' => String.eqb d d' && Nat.eqb u u'
  | _, _ => false
  end.

Definition key_eqb (a b : key) : bool :=
  match a, b with
  | KStr x, KStr y => String.eqb x y
  | KSym x, KSym y => sym_eqb x y
  | _, _ => false
  end.

(** Property access [o[k]] on a plain object (own properties). *)
Fixpoint lookup (o : obj) (k : key) : option value :=
  match o with
  | [] => None
  | (k', v) :: rest => if key_eqb k k' then Some v else lookup rest k
  end.

Definition get (o : obj) (k : key) : value :=
  match lookup o k with Some v => v | None => VUndef end.

(** Assignment [o[k] = v]: an existing property keeps its position, a new
    one is appended. *)
Fixpoint set (o : obj) (k : key) (v : value) : obj :=
  match o with
  | [] => [(k, v)]
  | (k', v') :: rest => if key_eqb k k' then (k', v) :: rest else (k', v') :: set rest k v
  end.

(** [delete o[k]]. *)
Definition del (o : obj) (k : key) : obj :=
  filter (fun kv => negb (key_eqb k (fst kv))) o.

(** [Object.keys(o)] (own enumerable string keys).  The engine's ordering of
    integer-like keys before the others is not modelled. *)
Definition objectKeys (o : obj) : list string :=
  flat_map (fun kv => match fst kv with KStr s => [s] | KSym _ => [] end) o.

(** [Object.getOwnPropertySymbols(o)]. *)
Definition ownSymbols (o : obj) : list sym :=
  flat_map (fun kv => match fst kv with KSym s => [s] | KStr _ => [] end) o.

Definition str_entries (o : obj) : obj :=
  filter (fun kv => match fst kv with KStr _ => true | KSym _ => false end) o.

Definition sym_entries (o : obj) : obj :=
  filter (fun kv => match fst kv with KSym _ => true | KStr _ => false end) o.

(** JavaScript truthiness. *)
Definition truthy (v : value) : bool :=
  match v with
  | VUndef | VNull => false
  | VBool b => b
  | VNum n => negb (Z.eqb n 0)
  | VStr s => negb (String.eqb s "")
  | _ => true
  end.

Definition is_undefined (v : value) : bool :=
  match v with VUndef => true | _ => false end.

(** lodash [isPlainObject]. *)
Definition isPlainObject (v : value) : bool :=
  match v with VObj _ => true | _ => false end.

(** [Array.isArray]. *)
Definition isArray (v : value) : bool :=
  match v with VArr _ => true | _ => false end.

(** lodash [isObject]: objects and functions. *)
Definition isObject (v : value) : bool :=
  match v with VObj _ | VArr _ | VInst _ | VFun _ _ _ => true | _ => false end.

Definition isFunction (v : value) : bool :=
  match v with VFun _ _ _ => true | _ => false end.

(** [typeof v === 'object'] (true for [null]). *)
Definition typeof_object (v : value) : bool :=
  match v with VNull | VObj _ | VArr _ | VInst _ => true | _ => false end.

(** Decimal rendering of an array index, as used for property keys. *)
Fixpoint string_of_nat_aux (fuel n : nat) (acc : string) : string :=
  match fuel with
  | 0 => acc
  | S f =>
      let acc' := String (ascii_of_nat (48 + n mod 10)) acc in
      if Nat.ltb n 10 then acc' else string_of_nat_aux f (n / 10) acc'
  end.

Definition string_of_nat (n : nat) : string := string_of_nat_aux (S n) n "".

(** Size of a value, used as recursion fuel. *)
Fixpoint value_size (v : value) : nat :=
  match v with
  | VObj o => S (fold_right (fun kv acc => value_size (snd kv) + acc) 0 o)
  | VArr xs => S (fold_right (fun x acc => value_size x + acc) 0 xs)
  | VFun _ _ (Some c) => S (value_size c)
  | _ => 1
  end.

Definition obj_size (o : obj) : nat := value_size (VObj o).

(** ** cloneDeep (object.ts, lines 67-85) *)

Section CloneDeep.
Variable onlyPlain : bool.

(** The customizer given to [cloneDeepWith]; [VUndef] is "return
    undefined", i.e. fall back to lodash's own cloning. *)
Definition cloneCustomizer (elem : value) : value :=
  match elem with
  | VArr _ | VObj _ => VUndef
  | _ =>
      if onlyPlain || typeof_object elem then elem
      else match elem with
           | VFun _ _ (Some c) => c       (* elem.clone() *)
           | _ => VUndef
           end
  end.

(** lodash [baseClone] with [CLONE_DEEP_FLAG | CLONE_SYMBOLS_FLAG];
    [top] is true for the value passed to [cloneDeepWith] itself (no parent
    object).  Plain objects are copied through [getAllKeys]: own string
    keys, then own enumerable symbols. *)
Fixpoint baseClone (top : bool) (v : value) {struct v} : value :=
  match cloneCustomizer v with
  | VUndef =>
      match v with
      | VArr xs => VArr (map (baseClone false) xs)
      | VObj o =>
          let cloned := map (fun '(k, x) => (k, baseClone false x)) o in
          VObj (str_entries cloned ++ sym_entries cloned)
      | VInst _ | VFun _ _ _ => if top then VObj [] else v
      | _ => v
      end
  | r => r
  end.

(** [cloneDeep(obj, onlyPlain)]: [cloneDeepWith(obj || {}, ...)]. *)
Definition cloneDeep (v : value) : value :=
  baseClone true (if truthy v then v else VObj []).
End CloneDeep.

(** ** merge (object.ts, lines 42-64) *)

(** [forOwn] visits the own enumerable string keys.  The recursive call
    [merge(result[key], value)] is bounded by [fuel]; [merge] below supplies
    the total size of its arguments, which exceeds the nesting depth. *)
Fixpoint merge_fuel (fuel : nat) (args : list obj) : obj :=
  match fuel with
  | 0 => []
  | S n =>
      let step (result : obj) (kv : key * value) : obj :=
        match kv with
        | (KSym _, _) => result
        | (KStr k, value) =>
            match value with
            | VUndef => result
            | _ =>
                let cur := get result (KStr k) in
                if negb (truthy cur) then set result (KStr k) value
                else match value, cur with
                     | VObj vo, VObj co => set result (KStr k) (VObj (merge_fuel n [co; vo]))
                     | VArr vs, VArr cs => set result (KStr k) (VArr (vs ++ cs))
                     | _, _ => set result (KStr k) value
                     end
            end
        end in
      fold_left (fun result o => fold_left step o result) args []
  end.

Definition merge (args : list obj) : obj :=
  merge_fuel (S (fold_right (fun o acc => obj_size o + acc) 0 args)) args.

(** ** mergeDefaults (object.ts, lines 21-37): lodash [mergeWith] *)

(** Keys visited by lodash [baseMerge]: [keysIn] of a plain object (its string
    keys) or the indices of an array. *)
Inductive pkey : Type :=
| PName (s : string)
| PIdx (i : nat).

(** [object[key]] on a merge target. *)
Definition cget (t : value) (k : pkey) : value :=
  match t, k with
  | VObj o, PName s => get o (KStr s)
  | VObj o, PIdx i => get o (KStr (string_of_nat i))
  | VArr xs, PIdx i => nth i xs VUndef
  | _, _ => VUndef
  end.

Definition chas (t : value) (k : pkey) : bool :=
  match t, k with
  | VObj o, PName s => if lookup o (KStr s) then true else false
  | VObj o, PIdx i => if lookup o (KStr (string_of_nat i)) then true else false
  | VArr xs, PIdx i => Nat.ltb i (length xs)
  | _, _ => false
  end.

(** [arr[i] = v], extending the array (holes read as undefined). *)
Fixpoint list_set_ext (xs : list value) (i : nat) (v : value) : list value :=
  match xs, i with
  | [], 0 => [v]
  | [], S j => VUndef :: list_set_ext [] j v
  | _ :: rest, 0 => v :: rest
  | x :: rest, S j => x :: list_set_ext rest j v
  end.

(** [object[key] = v] on a merge target; named properties of arrays are not
    modelled (this customizer never merges a plain object into an array). *)
Definition cset (t : value) (k : pkey) (v : value) : value :=
  match t, k with
  | VObj o, PName s => VObj (set o (KStr s) v)
  | VObj o, PIdx i => VObj (set o (KStr (string_of_nat i)) v)
  | VArr xs, PIdx i => VArr (list_set_ext xs i v)
  | _, _ => t
  end.

(** lodash [assignMergeValue]: a defined value is stored (storing a value
    equal to the current one changes nothing); undefined is stored only when
    the key is absent. *)
Definition assignMergeValue (t : value) (k : pkey) (v : value) : value :=
  match v with
  | VUndef => if chas t k then t else cset t k VUndef
  | _ => cset t k v
  end.

(** The customizer of [mergeDefaults]. *)
Definition mergeDefaultsCustomizer (objectValue sourceValue : value) : value :=
  if negb (isPlainObject objectValue) && negb (is_undefined objectValue) then
    match objectValue with
    | VFun _ true _ => if truthy sourceValue then sourceValue else objectValue
    | _ => objectValue
    end
  else VUndef.

(** lodash [isArrayLikeObject] for a non-array: a numeric [length] that is a
    valid length. *)
Definition arrayLikeLength (v : value) : option nat :=
  match v with
  | VObj o =>
      match get o (KStr "length") with
      | VNum n => if (0 <=? n)%Z && (n <=? 9007199254740991)%Z then Some (Z.to_nat n) else None
      | _ => None
      end
  | _ => None
  end.

Definition copyArray (v : value) (n : nat) : value :=
  VArr (map (fun i => cget v (PIdx i)) (seq 0 n)).

(** lodash [baseMergeDeep] for one key whose source value is an object;
    [mergeSub nv] is the recursive [baseMerge(nv, srcValue)]. *)
Definition baseMergeDeep (mergeSub : value -> value) (object : value) (k : pkey)
    (srcValue : value) : value :=
  let objValue := cget object k in
  match mergeDefaultsCustomizer objValue srcValue with
  | VUndef =>
      match srcValue with
      | VArr _ =>
          let nv := match objValue with
                    | VArr _ => objValue
                    | _ => match arrayLikeLength objValue with
                           | Some n => copyArray objValue n
                           | None => VArr []
                           end
                    end in
          assignMergeValue object k (mergeSub nv)
      | VObj _ =>
          let nv := if isObject objValue && negb (isFunction objValue) then objValue
                    else VObj [] in
          assignMergeValue object k (mergeSub nv)
      | _ => assignMergeValue object k srcValue
      end
  | newValue => assignMergeValue object k newValue
  end.

(** The branch of [baseMerge] for a source value that is not an object. *)
Definition mergePrimitive (object : value) (k : pkey) (srcValue : value) : value :=
  match mergeDefaultsCustomizer (cget object k) srcValue with
  | VUndef => assignMergeValue object k srcValue
  | newValue => assignMergeValue object k newValue
  end.

Fixpoint baseMerge (object source : value) {struct source} : value :=
  let mergeKey (t : value) (k : pkey) (srcValue : value) (mergeSub : value -> value) :=
    if isObject srcValue then baseMergeDeep mergeSub t k srcValue
    else mergePrimitive t k srcValue in
  match source with
  | VObj o =>
      (fix go (t : value) (es : obj) {struct es} : value :=
         match es with
         | [] => t
         | (KStr s, sv) :: rest => go (mergeKey t (PName s) sv (fun nv => baseMerge nv sv)) rest
         | (KSym _, _) :: rest => go t rest
         end) object o
  | VArr xs =>
      (fix go (t : value) (i : nat) (es : list value) {struct es} : value :=
         match es with
         | [] => t
         | sv :: rest => go (mergeKey t (PIdx i) sv (fun nv => baseMerge nv sv)) (S i) rest
         end) object 0 xs
  | _ => object
  end.

(** [mergeDefaults(a, b)]: [mergeWith(a, b, customizer)], which mutates and
    returns [a]; the result is [a]'s contents afterwards. *)
Definition mergeDefaults (a b : obj) : value := baseMerge (VObj a) (VObj b).

(** ** Operator symbols and model metadata *)

(** Modelled from the spec: the operator symbols [Op] (exported by the ORM's
    root module, outside src/), "a fixed set of special query-operator keys".
    Each is a registered symbol [Symbol.for(name)]. *)
Definition operatorNames : list string :=
  ["eq"; "ne"; "gte"; "gt"; "lte"; "lt"; "not"; "is"; "in"; "notIn"; "like";
   "notLike"; "iLike"; "notILike"; "startsWith"; "endsWith"; "substring";
   "regexp"; "notRegexp"; "iRegexp"; "notIRegexp"; "between"; "notBetween";
   "overlap"; "contains"; "contained"; "adjacent"; "strictLeft"; "strictRight";
   "noExtendRight"; "noExtendLeft"; "and"; "or"; "any"; "all"; "values"; "col";
   "placeholder"; "join"; "match"; "anyKeyExists"; "allKeysExist"]%string.

(** [operatorsSet.has(s)] with [operatorsSet = new Set(Object.values(Op))]. *)
Definition operatorsSet_has (s : sym) : bool :=
  match s with
  | SymFor name => existsb (String.eqb name) operatorNames
  | SymUnique _ _ => false
  end.

(** [getOperators(obj)] (part_000, lines 148-150). *)
Definition getOperators (o : obj) : list sym :=
  filter operatorsSet_has (ownSymbols o).

(** [getComplexKeys(obj)] (part_000, lines 134-139). *)
Definition getComplexKeys (o : obj) : list key :=
  map KSym (getOperators o) ++ map KStr (objectKeys o).

(** A data type instance, seen through [instanceof]: the names of the classes
    on its prototype chain. *)
Record data_type : Type := { dt_classes : list string }.

Definition instanceof (t : data_type) (cls : string) : bool :=
  existsb (String.eqb cls) (dt_classes t).

(** An entry of [Model.rawAttributes]: [field] and [fieldName] may be
    undefined ([None]). *)
Record raw_attribute : Type := {
  field : option string;
  fieldName : option string;
  type : data_type
}.

(** The model metadata read by the utilities. *)
Record model : Type := {
  rawAttributes : list (string * raw_attribute);
  virtualAttributes : list string
}.

Fixpoint assoc {A : Type} (l : list (string * A)) (k : string) : option A :=
  match l with
  | [] => None
  | (k', a) :: rest => if String.eqb k k' then Some a else assoc rest k
  end.

(** [Model.rawAttributes[k]] for a string key. *)
Definition rawAttr (M : model) (k : string) : option raw_attribute :=
  assoc (rawAttributes M) k.

(** [Model.rawAttributes[k]] for a string or symbol key: the dictionary has
    string keys only. *)
Definition rawAttrKey (M : model) (k : key) : option raw_attribute :=
  match k with KStr s => rawAttr M s | KSym _ => None end.

(** [Model._virtualAttributes.has(attr)]. *)
Definition isVirtual (M : model) (attr : string) : bool :=
  existsb (String.eqb attr) (virtualAttributes M).

(** Strict equality of two possibly undefined strings. *)
Definition opt_str_eqb (a b : option string) : bool :=
  match a, b with
  | Some x, Some y => String.eqb x y
  | None, None => true
  | _, _ => false
  end.

(** [rawAttribute.field] as a value and as a property key. *)
Definition field_value (r : raw_attribute) : value :=
  match field r with Some f => VStr f | None => VUndef end.

Definition field_key (r : raw_attribute) : key :=
  match field r with Some f => KStr f | None => KStr "undefined" end.

(** [rawAttribute.type instanceof DataTypes.HSTORE || ... instanceof DataTypes.JSON]. *)
Definition isHstoreOrJson (r : raw_attribute) : bool :=
  instanceof (type r) "HSTORE" || instanceof (type r) "JSON".

(** ** mapOptionFieldNames and mapWhereFieldNames (part_000, lines 52-125) *)

(** [FinderOptions]: absent properties are [VUndef]. *)
Record finder_options : Type := {
  fo_attributes : value;
  fo_where : value
}.

(** The callback of [options.attributes.map] (lines 57-72). *)
Definition mapAttr (M : model) (attr : value) : value :=
  match attr with
  | VStr a =>
      match rawAttr M a with
      | Some r => if negb (opt_str_eqb (Some a) (field r)) then VArr [field_value r; VStr a] else attr
      | None => attr
      end
  | _ => attr
  end.

(** [mapOptionFieldNames] with the call [mapWhereFieldNames(where, Model)] on
    a plain object given as [mapWhere]; returns the new contents of
    [options] (the function assigns them into [options] and returns it). *)
Definition mapOptionFieldNames_with (mapWhere : obj -> obj) (options : finder_options)
    (M : model) : finder_options :=
  let attributes :=
    match fo_attributes options with
    | VArr xs => VArr (map (mapAttr M) xs)
    | a => a
    end in
  let where_ :=
    match fo_where options with
    | VObj w => VObj (mapWhere w)
    | w => w
    end in
  {| fo_attributes := attributes; fo_where := where_ |}.

(** Iterations of [for (let i = 0; i < attributes.length; i++)] when
    [attributes] is a plain object: a number [n] bounds [i] by [n], [true] by
    1; undefined, null, false and objects compare as NaN or 0 and stop the
    loop at once (numeric strings are not modelled). *)
Definition loop_bound (len : value) : nat :=
  match len with
  | VNum n => Z.to_nat n
  | VBool true => 1
  | _ => 0
  end.

(** [attributes[attributeName][i] = v] on an array. *)
Definition array_set (arr : value) (i : nat) (v : value) : value :=
  match arr with
  | VArr xs => VArr (list_set_ext xs i v)
  | _ => arr
  end.

(** [mapWhereFieldNames] on a (truthy) plain object, recursion bounded by
    [fuel]. *)
Fixpoint mapWhereObj (fuel : nat) (M : model) (input : obj) : obj :=
  match fuel with
  | 0 => input
  | S n =>
      (* attributes = cloneDeep(attributes) *)
      let attributes0 :=
        match cloneDeep false (VObj input) with VObj o => o | _ => input end in
      let step (attributes : obj) (attributeName : key) : obj :=
        let rawAttribute := rawAttrKey M attributeName in
        let a1 :=
          match rawAttribute with
          | Some r =>
              if negb (opt_str_eqb (field r) (fieldName r)) then
                del (set attributes (field_key r) (get attributes attributeName)) attributeName
              else attributes
          | None => attributes
          end in
        let hstoreOrJson :=
          match rawAttribute with Some r => isHstoreOrJson r | None => false end in
        let a2 :=
          if isPlainObject (get a1 attributeName) && negb hstoreOrJson then
            set a1 attributeName
              (fo_where (mapOptionFieldNames_with (mapWhereObj n M)
                           {| fo_attributes := VUndef; fo_where := get a1 attributeName |} M))
          else a1 in
        if isArray (get a2 attributeName) then
          fold_left
            (fun a i =>
               match get a (KStr (string_of_nat i)) with
               | VObj w => set a attributeName
                             (array_set (get a attributeName) i (VObj (mapWhereObj n M w)))
               | _ => a
               end)
            (seq 0 (loop_bound (get a2 (KStr "length")))) a2
        else a2 in
      fold_left step (getComplexKeys attributes0) attributes0
  end.

(** [mapWhereFieldNames(attributes, Model)]; [None] marks a truthy input that
    is not a plain object, outside this model (the callers only pass plain
    objects). *)
Definition mapWhereFieldNames (attributes : value) (M : model) : option value :=
  if negb (truthy attributes) then Some attributes
  else match attributes with
       | VObj o => Some (VObj (mapWhereObj (value_size attributes) M o))
       | _ => None
       end.

Definition mapOptionFieldNames (options : finder_options) (M : model) : finder_options :=
  mapOptionFieldNames_with (fun w => mapWhereObj (obj_size w) M w) options M.

(** ** flattenObjectDeep (object.ts, lines 117-138) *)

(** [flattenObject(obj, subPath)] writing into the shared [flattenedObj]
    ([acc]).  [Object.keys] of a nested array gives its indices; the own keys
    of non-plain objects are not modelled (none).  [getValue(obj, key)]
    (lodash [get]) reads the own property [key] itself. *)
Fixpoint flattenObject (o : value) (subPath : option string) (acc : obj) {struct o} : obj :=
  let pathToProperty (k : string) : string :=
    match subPath with
    | Some sp => if truthy (VStr sp) then (sp ++ "." ++ k)%string else k
    | None => k
    end in
  match o with
  | VObj props =>
      (fix go (acc : obj) (es : obj) {struct es} : obj :=
         match es with
         | [] => acc
         | (KStr k, x) :: rest =>
             go (if typeof_object x && negb (match x with VNull => true | _ => false end)
                 then flattenObject x (Some (pathToProperty k)) acc
                 else set acc (KStr (pathToProperty k)) x) rest
         | (KSym _, _) :: rest => go acc rest
         end) acc props
  | VArr xs =>
      (fix go (acc : obj) (i : nat) (es : list value) {struct es} : obj :=
         match es with
         | [] => acc
         | x :: rest =>
             let k := string_of_nat i in
             go (if typeof_object x && negb (match x with VNull => true | _ => false end)
                 then flattenObject x (Some (pathToProperty k)) acc
                 else set acc (KStr (pathToProperty k)) x) (S i) rest
         end) acc 0 xs
  | _ => acc
  end.

Definition flattenObjectDeep (v : value) : value :=
  if isPlainObject v then VObj (flattenObject v None []) else v.

(** ** combineTableNames (part_000, lines 152-156) *)

(** [String.prototype.toLowerCase] on ASCII text. *)
Definition ascii_lower (c : ascii) : ascii :=
  let n := nat_of_ascii c in
  if Nat.leb 65 n && Nat.leb n 90 then ascii_of_nat (n + 32) else c.

Fixpoint toLowerCase (s : string) : string :=
  match s with
  | EmptyString => EmptyString
  | String c rest => String (ascii_lower c) (toLowerCase rest)
  end.

(** [a < b] on strings: lexicographic comparison of characters. *)
Definition combineTableNames (tableName1 tableName2 : string) : string :=
  if String.ltb (toLowerCase tableName1) (toLowerCase tableName2)
  then (tableName1 ++ tableName2)%string
  else (tableName2 ++ tableName1)%string.

(** ** mapValueFieldNames (part_000, lines 159-178) *)

(** Outcome of a call that may throw. *)
Inductive js_result (A : Type) : Type :=
| Ok (a : A)
| Throw (error : string).
Arguments Ok {A} a.
Arguments Throw {A} error.

Definition js_bind {A B : Type} (m : js_result A) (f : A -> js_result B) : js_result B :=
  match m with Ok a => f a | Throw e => Throw e end.

Notation "x <- m ;; k" := (js_bind m (fun x => k)) (at level 61, m at next level, right associativity).

(** Index of an array-like element named by a property key. *)
Definition index_of_key (k : string) (len : nat) : option nat :=
  find (fun i => String.eqb (string_of_nat i) k) (seq 0 len).

(** [v[k]] for a string key: reading a property of [undefined] or [null]
    throws a [TypeError]; primitives other than strings have no own
    properties. *)
Definition getProp (v : value) (k : string) : js_result value :=
  match v with
  | VUndef | VNull => Throw "TypeError"
  | VObj o => Ok (get o (KStr k))
  | VArr xs =>
      if String.eqb k "length" then Ok (VNum (Z.of_nat (length xs)))
      else match index_of_key k (length xs) with
           | Some i => Ok (nth i xs VUndef)
           | None => Ok VUndef
           end
  | VStr s =>
      if String.eqb k "length" then Ok (VNum (Z.of_nat (String.length s)))
      else match index_of_key k (String.length s) with
           | Some i => Ok (VStr (substring i 1 s))
           | None => Ok VUndef
           end
  | _ => Ok VUndef
  end.

(** [fields] is the list of attribute names iterated by [for..of]. *)
Definition mapValueFieldNames (dataValues : value) (fields : list string) (M : model)
    : js_result obj :=
  fold_left
    (fun (acc : js_result obj) (attr : string) =>
       values <- acc ;;
       v <- getProp dataValues attr ;;
       if negb (is_undefined v) && negb (isVirtual M attr) then
         match rawAttr M attr with
         | Some r =>
             match field r with
             | Some f =>
                 if truthy (VStr f) && negb (String.eqb f attr)
                 then Ok (set values (KStr f) v)
                 else Ok (set values (KStr attr) v)
             | None => Ok (set values (KStr attr) v)
             end
         | None => Ok (set values (KStr attr) v)
         end
       else Ok values)
    fields (Ok []).

(** The two questions the loop asks about an attribute [attr] of a plain
    [dataValues] object: is it copied, and under which key. *)
Definition qualifies (o : obj) (M : model) (attr : string) : bool :=
  negb (is_undefined (get o (KStr attr))) && negb (isVirtual M attr).

Definition mappedName (M : model) (attr : string) : string :=
  match rawAttr M attr with
  | Some r =>
      match field r with
      | Some f => if truthy (VStr f) && negb (String.eqb f attr) then f else attr
      | None => attr
      end
  | None => attr
  end.

(** ** removeNullValuesFromHash (part_000, lines 180-206) *)

(** [key.endsWith(suffix)]. *)
Definition endsWith (s suffix : string) : bool :=
  let n := String.length s in
  let m := String.length suffix in
  Nat.leb m n && String.eqb (substring (n - m) m s) suffix.

(** The (key, value) pairs visited by lodash [forIn]: own and inherited
    enumerable string keys; symbols are skipped. *)
Definition forInEntries (v : value) : list (string * value) :=
  match v with
  | VObj o => flat_map (fun kv => match kv with (KStr k, x) => [(k, x)] | _ => [] end) o
  | VArr xs => combine (map string_of_nat (seq 0 (length xs))) xs
  | VStr s => map (fun i => (string_of_nat i, VStr (substring i 1 s))) (seq 0 (String.length s))
  | _ => []
  end.

Definition is_nullish (v : value) : bool :=
  match v with VUndef | VNull => true | _ => false end.

(** The test of the [forIn] callback. *)
Definition keepEntry (allow : list string) (k : string) (val : value) : bool :=
  existsb (String.eqb k) allow || endsWith k "Id" || negb (is_nullish val).

(** [allowNull] is [options.allowNull] ([None] when undefined). *)
Definition removeNullValuesFromHash (hash : value) (omitNull : bool)
    (allowNull : option (list string)) : value :=
  let allow := match allowNull with Some l => l | None => [] end in
  if omitNull then
    VObj (fold_left
            (fun (_hash : obj) (kv : string * value) =>
               let (k, val) := kv in
               if keepEntry allow k val then set _hash (KStr k) val else _hash)
            (forInEntries hash) [])
  else hash.

(** ** defaults (object.ts, lines 153-177) *)

(** The pairs [(key, source[key])] for the keys [getComplexKeys(source)] of a
    truthy source: for a plain object its operator symbols and string keys;
    for an array or a string its indices (neither has own symbols); for other
    primitives nothing.  The own properties of functions and non-plain
    objects are not modelled (none). *)
Definition complexEntries (source : value) : list (key * value) :=
  match source with
  | VObj o => map (fun k => (k, get o k)) (getComplexKeys o)
  | VArr xs => combine (map (fun i => KStr (string_of_nat i)) (seq 0 (length xs))) xs
  | VStr s =>
      map (fun i => (KStr (string_of_nat i), VStr (substring i 1 s))) (seq 0 (String.length s))
  | _ => []
  end.

(** [defaults(objectIn, ...sources)] assigns into [objectIn] and returns it;
    the result is its contents afterwards.  [Object.prototype] has no members
    in this model, so [objectPrototype[key]] is undefined and the second
    disjunct ([isEqual] is lodash [eq]) only holds when [value] is undefined
    too: the test reduces to [value === undefined]. *)
Definition defaults (objectIn : obj) (sources : list value) : obj :=
  fold_left
    (fun (objectIn : obj) (source : value) =>
       if negb (truthy source) then objectIn
       else
         fold_left
           (fun (objectIn : obj) (kv : key * value) =>
              let (key, v) := kv in
              if is_undefined (get objectIn key) then set objectIn key v else objectIn)
           (complexEntries source) objectIn)
    sources objectIn.

(** ** camelizeObjectKeys (object.ts, lines 184-192) *)

(** [camelize] is imported from the string utilities, which are not part of
    these sources: it is a parameter, and what is proved holds for every
    key transformation.  The result is a fresh null-prototype object. *)
Definition camelizeObjectKeys (camelize : string -> string) (o : obj) : obj :=
  fold_left (fun newObj key => set newObj (KStr (camelize key)) (get o (KStr key)))
    (objectKeys o) [].

(** ** mapFinderOptions (part_000, lines 33-49) *)

(** [Model._virtualAttributes.has(v)]: the set holds attribute names, so only
    a string can be in it. *)
Definition isVirtualValue (M : model) (v : value) : bool :=
  match v with VStr s => isVirtual M s | _ => false end.

(** [Model._injectDependentVirtualAttributes] is a method of the model class,
    not part of these sources: it is the parameter [inject] (attributes list
    in, attributes list out).  The function writes into [options] and
    returns it; the result is its contents afterwards. *)
Definition mapFinderOptions (inject : list value -> list value) (options : finder_options)
    (M : model) : finder_options :=
  let options1 :=
    match fo_attributes options with
    | VArr xs =>
        {| fo_attributes := VArr (filter (fun v => negb (isVirtualValue M v)) (inject xs));
           fo_where := fo_where options |}
    | _ => options
    end in
  mapOptionFieldNames options1 M.

(** ** The step of mapWhereFieldNames, in three parts *)

(** The renaming of one key ([a1] in [mapWhereObj]). *)
Definition renameStep (M : model) (attributes : obj) (attributeName : key) : obj :=
  match rawAttrKey M attributeName with
  | Some r =>
      if negb (opt_str_eqb (field r) (fieldName r)) then
        del (set attributes (field_key r) (get attributes attributeName)) attributeName
      else attributes
  | None => attributes
  end.

(** The recursion into a plain-object value ([a2]). *)
Definition recurseStep (n : nat) (M : model) (a1 : obj) (attributeName : key) : obj :=
  let hstoreOrJson :=
    match rawAttrKey M attributeName with Some r => isHstoreOrJson r | None => false end in
  if isPlainObject (get a1 attributeName) && negb hstoreOrJson then
    set a1 attributeName
      (fo_where (mapOptionFieldNames_with (mapWhereObj n M)
                   {| fo_attributes := VUndef; fo_where := get a1 attributeName |} M))
  else a1.

(** The loop over an array value. *)
Definition arrayStep (n : nat) (M : model) (a2 : obj) (attributeName : key) : obj :=
  if isArray (get a2 attributeName) then
    fold_left
      (fun a i =>
         match get a (KStr (string_of_nat i)) with
         | VObj w => set a attributeName
                       (array_set (get a attributeName) i (VObj (mapWhereObj n M w)))
         | _ => a
         end)
      (seq 0 (loop_bound (get a2 (KStr "length")))) a2
  else a2.

Definition whereStep (n : nat) (M : model) (attributes : obj) (attributeName : key) : obj :=
  arrayStep n M (recurseStep n M (renameStep M attributes attributeName) attributeName)
    attributeName.

(** ** mapOptionFieldNames on the caller's objects

    Object identity, for [mapOptionFieldNames(options, Model)]: an options
    object holds references to the objects and arrays of a store.  An object
    or array of the store holds its nested objects and arrays inline (they
    are part of it: [cloneDeep] copies them all, and the loop of
    [mapWhereFieldNames] writes only into its own clone). *)

(** A property of an options object: a primitive value (undefined, null, a
    boolean, a number or a string), or a reference to an object or array of
    the store. *)
Inductive hval : Type :=
| HPrim (v : value)
| HRef (l : nat).

(** The options objects, each with its [attributes] and [where]
    properties, and the objects and arrays they refer to. *)
Record heap : Type := {
  hopts : list (nat * (hval * hval));
  hobjs : list (nat * value)
}.

Fixpoint hget {A : Type} (h : list (nat * A)) (l : nat) : option A :=
  match h with
  | [] => None
  | (l', x) :: rest => if Nat.eqb l l' then Some x else hget rest l
  end.

(** Writing at [l]: in place, or as a new entry (allocation). *)
Fixpoint hset {A : Type} (h : list (nat * A)) (l : nat) (x : A) : list (nat * A) :=
  match h with
  | [] => [(l, x)]
  | (l', y) :: rest => if Nat.eqb l l' then (l', x) :: rest else (l', y) :: hset rest l x
  end.

(** The location of a new object or array. *)
Definition fresh (h : heap) : nat := S (list_max (map fst (hobjs h))).

(** The value a property stands for. *)
Definition deref (h : heap) (x : hval) : value :=
  match x with
  | HPrim v => v
  | HRef l => match hget (hobjs h) l with Some v => v | None => VUndef end
  end.

(** One iteration of the loop of [mapWhereFieldNames]: the local
    [attributes] is the object at [lc]. *)
Definition whereStep_at (n : nat) (M : model) (lc : nat) (h : heap) (attributeName : key) : heap :=
  match hget (hobjs h) lc with
  | Some (VObj attributes) =>
      {| hopts := hopts h;
         hobjs := hset (hobjs h) lc (VObj (whereStep n M attributes attributeName)) |}
  | _ => h
  end.

(** [mapWhereFieldNames(attributes, Model)] for the plain object at [lw]:
    [attributes = cloneDeep(attributes)] makes a new object of the store,
    the loop over [getComplexKeys(attributes)] rewrites that object one key at
    a time ([whereStep], the body of the loop), and the result is a reference
    to it. *)
Definition mapWhereFieldNames_at (h : heap) (lw : nat) (M : model) : heap * hval :=
  match hget (hobjs h) lw with
  | Some v =>
      match cloneDeep false v with
      | VObj o0 =>
          let lc := fresh h in
          let h1 := {| hopts := hopts h; hobjs := hset (hobjs h) lc (VObj o0) |} in
          (fold_left (whereStep_at (Nat.pred (value_size v)) M lc) (getComplexKeys o0) h1,
           HRef lc)
      | _ => (h, HRef lw)
      end
  | None => (h, HRef lw)
  end.

(** [if (Array.isArray(options.attributes)) options.attributes =
    options.attributes.map(...)]: [map] makes a new array. *)
Definition mapAttributes_at (h : heap) (l : nat) (M : model) : heap :=
  match hget (hopts h) l with
  | Some (HRef la, w) =>
      match hget (hobjs h) la with
      | Some (VArr xs) =>
          let la' := fresh h in
          {| hopts := hset (hopts h) l (HRef la', w);
             hobjs := hset (hobjs h) la' (VArr (map (mapAttr M) xs)) |}
      | _ => h
      end
  | _ => h
  end.

(** [if (options.where && isPlainObject(options.where)) options.where =
    mapWhereFieldNames(options.where, Model)]. *)
Definition mapWhere_at (h : heap) (l : nat) (M : model) : heap :=
  match hget (hopts h) l with
  | Some (a, HRef lw) =>
      match hget (hobjs h) lw with
      | Some (VObj _) =>
          let '(h2, w2) := mapWhereFieldNames_at h lw M in
          {| hopts := hset (hopts h2) l (a, w2); hobjs := hobjs h2 |}
      | _ => h
      end
  | _ => h
  end.

(** [mapOptionFieldNames(options, Model)] with [options] the object at [l]:
    the function returns its argument. *)
Definition mapOptionFieldNames_at (h : heap) (l : nat) (M : model) : option (heap * nat) :=
  match hget (hopts h) l with
  | Some _ => Some (mapWhere_at (mapAttributes_at h l M) l M, l)
  | None => None
  end.

(** A property as the store represents it: a primitive is not an object,
    and a reference points to an object or array of the store. *)
Definition wf_hval (h : heap) (x : hval) : Prop :=
  match x with
  | HPrim v => isObject v = false
  | HRef l => hget (hobjs h) l <> None
  end.

(** The objects of the store that a call leaves as they were. *)
Definition objs_kept (h h' : heap) : Prop :=
  forall lo v, hget (hobjs h) lo = Some v -> hget (hobjs h') lo = Some v.

(** ** The forOwn callback of merge *)

(** The callback [merge] runs for one property of an argument, [n] being the
    fuel left for the recursive call. *)
Definition mergeStep (n : nat) (result : obj) (kv : key * value) : obj :=
  match kv with
  | (KSym _, _) => result
  | (KStr k, value) =>
      match value with
      | VUndef => result
      | _ =>
          let cur := get result (KStr k) in
          if negb (truthy cur) then set result (KStr k) value
          else match value, cur with
               | VObj vo, VObj co => set result (KStr k) (VObj (merge_fuel n [co; vo]))
               | VArr vs, VArr cs => set result (KStr k) (VArr (vs ++ cs))
               | _, _ => set result (KStr k) value
               end
      end
  end.

(** ** Vocabulary of the properties *)

(** [leaf_path v p x]: following the property names [p] from [v] (keys of
    plain objects, decimal indices of arrays) reaches [x]. *)
Inductive leaf_path : value -> list string -> value -> Prop :=
| lp_here v : leaf_path v [] v
| lp_obj o k x p l : In (KStr k, x) o -> leaf_path x p l -> leaf_path (VObj o) (k :: p) l
| lp_arr xs i x p l :
    nth_error xs i = Some x -> leaf_path x p l -> leaf_path (VArr xs) (string_of_nat i :: p) l.

(** The values [flattenObjectDeep] does not descend into: anything but a
    non-null object. *)
Definition is_leaf (v : value) : bool :=
  negb (typeof_object v) || match v with VNull => true | _ => false end.

(** A path written with dots. *)
Definition join_path (p : list string) : string := String.concat "." p.

(** Every property of [acc] is a leaf of [root] stored under the dotted
    path that leads to it. *)
Definition flat_sound (root : value) (acc : obj) : Prop :=
  forall k w, lookup acc k = Some w ->
    exists path, k = KStr (join_path path) /\ path <> [] /\
                 leaf_path root path w /\ is_leaf w = true.

(** Values [cloneDeep(_, onlyPlain)] copies to an equal value: plain
    objects listing their string keys before their symbols (the order in
    which lodash copies them), arrays, non-plain objects (kept by reference),
    primitives, and functions without a [clone] method returning a value
    (or any function when [onlyPlain] is set, which keeps them as they are). *)
Inductive clone_fixed (onlyPlain : bool) : value -> Prop :=
| cf_obj o :
    str_entries o ++ sym_entries o = o ->
    Forall (fun kv => clone_fixed onlyPlain (snd kv)) o -> clone_fixed onlyPlain (VObj o)
| cf_arr xs : Forall (clone_fixed onlyPlain) xs -> clone_fixed onlyPlain (VArr xs)
| cf_inst r : clone_fixed onlyPlain (VInst r)
| cf_fun r nat c :
    onlyPlain = true \/ c = None \/ c = Some VUndef -> clone_fixed onlyPlain (VFun r nat c)
| cf_prim v : isObject v = false -> clone_fixed onlyPlain v.

(** ** Concrete inputs used below *)

Definition STRING_type : data_type := {| dt_classes := ["STRING"; "ABSTRACT"]%string |}.

(** A model with attributes [a] (column [a_col]) and [b] (column [b_col]). *)
Definition exampleModel : model := {|
  rawAttributes :=
    [("a", {| field := Some "a_col"; fieldName := Some "a"; type := STRING_type |});
     ("b", {| field := Some "b_col"; fieldName := Some "b"; type := STRING_type |})]%string;
  virtualAttributes := []
|}.

(** A model whose attribute [a] is stored in the column [b], next to an
    attribute [b] without a column of its own. *)
Definition collidingModel : model := {|
  rawAttributes :=
    [("a", {| field := Some "b"; fieldName := Some "a"; type := STRING_type |});
     ("b", {| field := None; fieldName := Some "b"; type := STRING_type |})]%string;
  virtualAttributes := []
|}.

(** [Op.or] and [Op.eq]. *)
Definition Op_or : sym := SymFor "or".
Definition Op_eq : sym := SymFor "eq".

(** An options object [{ attributes: ['a'], where: { a: 1 } }] at location 0,
    its attributes array at 1 and its where object at 2. *)
Definition optionsHeap : heap := {|
  hopts := [(0, (HRef 1, HRef 2))];
  hobjs := [(1, VArr [VStr "a"]); (2, VObj [(KStr "a", VNum 1)])]
|}.

(** [t] is a plain object with the same symbol-keyed properties as [a]. *)
Definition sym_preserved (a : obj) (t : value) : Prop :=
  exists r, t = VObj r /\ forall s, lookup r (KSym s) = lookup a (KSym s).

(** ** Properties of the object primitives *)

Lemma sym_eqb_refl : forall s, sym_eqb s s = true.
Proof. destruct s; simpl; rewrite ?String.eqb_refl, ?Nat.eqb_refl; reflexivity. Qed.

Lemma key_eqb_refl : forall k, key_eqb k k = true.
Proof. destruct k; simpl; [apply String.eqb_refl | apply sym_eqb_refl]. Qed.

Lemma key_eqb_eq : forall a b, key_eqb a b = true -> a = b.
Proof.
  intros [x | x] [y | y]; simpl; try discriminate.
  - intros H. apply String.eqb_eq in H. now subst.
  - destruct x, y; simpl; try discriminate; intros H.
    + apply String.eqb_eq in H. now subst.
    + apply andb_true_iff in H as [H1 H2].
      apply String.eqb_eq in H1. apply Nat.eqb_eq in H2. now subst.
Qed.

Lemma key_eqb_neq : forall a b, a <> b -> key_eqb a b = false.
Proof.
  intros a b Hne. destruct (key_eqb a b) eqn:E; [|reflexivity].
  exfalso. apply Hne, key_eqb_eq, E.
Qed.

Lemma lookup_set_same : forall o k v, lookup (set o k v) k = Some v.
Proof.
  induction o as [|[k' v'] rest IH]; intros k v; simpl.
  - now rewrite key_eqb_refl.
  - destruct (key_eqb k k') eqn:E; simpl; rewrite ?E; [reflexivity|].
    apply IH.
Qed.

Lemma lookup_set_other : forall o k k' v, k <> k' -> lookup (set o k' v) k = lookup o k.
Proof.
  induction o as [|[k0 v0] rest IH]; intros k k' v Hne; simpl.
  - now rewrite key_eqb_neq.
  - destruct (key_eqb k' k0) eqn:E; simpl.
    + apply key_eqb_eq in E; subst k0. now rewrite key_eqb_neq.
    + destruct (key_eqb k k0); [reflexivity|]. now apply IH.
Qed.

Lemma lookup_set_str_sym : forall o k s v, lookup (set o (KStr k) v) (KSym s) = lookup o (KSym s).
Proof. intros. apply lookup_set_other. discriminate. Qed.

Lemma lookup_app : forall A B k,
  lookup (A ++ B) k = match lookup A k with Some v => Some v | None => lookup B k end.
Proof.
  induction A as [|[k' v'] rest IH]; intros B k; simpl; [reflexivity|].
  destruct (key_eqb k k'); [reflexivity|]. apply IH.
Qed.

Lemma lookup_str_entries_sym : forall o s, lookup (str_entries o) (KSym s) = None.
Proof.
  induction o as [|[[k|k] v] rest IH]; intros s; simpl; auto.
Qed.

Lemma lookup_sym_entries_sym : forall o s, lookup (sym_entries o) (KSym s) = lookup o (KSym s).
Proof.
  induction o as [|[[k|k] v] rest IH]; intros s; simpl; auto.
  destruct (sym_eqb s k); auto.
Qed.

Lemma lookup_map_values : forall (f : value -> value) o k,
  lookup (map (fun '(k0, x) => (k0, f x)) o) k = option_map f (lookup o k).
Proof.
  induction o as [|[k' v'] rest IH]; intros k; simpl; [reflexivity|].
  destruct (key_eqb k k'); [reflexivity|]. apply IH.
Qed.

Lemma fold_left_inv {A B : Type} (P : A -> Prop) (f : A -> B -> A) :
  (forall a b, P a -> P (f a b)) -> forall l a, P a -> P (fold_left f l a).
Proof. intros Hf l. induction l as [|b l IH]; intros a Ha; simpl; auto. Qed.

(** *** Merge steps touch string keys only *)

Lemma cset_sym_preserved : forall a r k v,
  (forall s, lookup r (KSym s) = lookup a (KSym s)) -> sym_preserved a (cset (VObj r) k v).
Proof.
  intros a r [s0 | i] v Hr; eexists; split; try reflexivity;
    intros s; rewrite lookup_set_str_sym; apply Hr.
Qed.

Lemma assignMergeValue_sym_preserved : forall a t k v,
  sym_preserved a t -> sym_preserved a (assignMergeValue t k v).
Proof.
  intros a t k v [r [-> Hr]]. unfold assignMergeValue.
  destruct v; try (apply cset_sym_preserved; exact Hr).
  destruct (chas (VObj r) k); [exists r; auto | apply cset_sym_preserved; exact Hr].
Qed.

Lemma baseMergeDeep_sym_preserved : forall f a t k sv,
  sym_preserved a t -> sym_preserved a (baseMergeDeep f t k sv).
Proof.
  intros f a t k sv H. unfold baseMergeDeep.
  destruct (mergeDefaultsCustomizer _ _); try (apply assignMergeValue_sym_preserved; exact H).
  destruct sv; apply assignMergeValue_sym_preserved; exact H.
Qed.

Lemma mergePrimitive_sym_preserved : forall a t k sv,
  sym_preserved a t -> sym_preserved a (mergePrimitive t k sv).
Proof.
  intros a t k sv H. unfold mergePrimitive.
  destruct (mergeDefaultsCustomizer _ _); apply assignMergeValue_sym_preserved; exact H.
Qed.

Lemma baseMerge_sym_preserved : forall src a t,
  sym_preserved a t -> sym_preserved a (baseMerge t src).
Proof.
  intros src a. destruct src; intros t Ht; simpl; try exact Ht.
  - revert t Ht. induction props as [|[[s|s] sv] rest IH]; intros t Ht; [exact Ht| |apply IH, Ht].
    apply IH. destruct (isObject sv).
    + apply baseMergeDeep_sym_preserved, Ht.
    + apply mergePrimitive_sym_preserved, Ht.
  - generalize 0. revert t Ht.
    induction elems as [|sv rest IH]; intros t Ht i; [exact Ht|].
    apply IH. destruct (isObject sv).
    + apply baseMergeDeep_sym_preserved, Ht.
    + apply mergePrimitive_sym_preserved, Ht.
Qed.

Lemma merge_fuel_no_sym : forall fuel args s, lookup (merge_fuel fuel args) (KSym s) = None.
Proof.
  intros [|n] args s; [reflexivity|]. simpl.
  apply (fold_left_inv (fun r => lookup r (KSym s) = None)); [|reflexivity].
  intros result o Hres.
  apply (fold_left_inv (fun r => lookup r (KSym s) = None)); [|exact Hres].
  intros r [[k|k] v] Hr; simpl; [|exact Hr].
  destruct v; try exact Hr;
    repeat match goal with
           | |- context [if ?c then _ else _] => destruct c
           | |- context [match ?x with _ => _ end] => destruct x
           end; rewrite ?lookup_set_str_sym; exact Hr.
Qed.

(** ** C1: operator symbols through cloneDeep, mergeDefaults and merge *)

(** C1 (counterexample): the claim that an operator-symbol key of an input
    object survives [merge] fails: [merge({[Op.eq]: 1})] has no [Op.eq] key,
    because [forOwn] visits string keys only. *)
Lemma C1_merge_drops_operator_key :
  ~ (forall (o : obj) (s : sym) (v : value),
       operatorsSet_has s = true -> lookup o (KSym s) = Some v ->
       lookup (merge [o]) (KSym s) = Some v).
Proof.
  intros H.
  specialize (H [(KSym Op_eq, VNum 1)] Op_eq (VNum 1) eq_refl eq_refl).
  vm_compute in H. discriminate.
Qed.

(** C1 (amended): for every symbol key [s] (the operator symbols included),
    [cloneDeep] of a plain object keeps [s], mapped to the deep clone of its
    value; [mergeDefaults(a, b)] returns [a] with [a]'s symbol keys and values
    unchanged and none of [b]'s added; [merge] keeps no symbol key. *)
Theorem C1_symbol_keys_through_clone_and_merges : forall s : sym,
  (forall (onlyPlain : bool) (o : obj), exists o',
      cloneDeep onlyPlain (VObj o) = VObj o' /\
      lookup o' (KSym s) = option_map (baseClone onlyPlain false) (lookup o (KSym s))) /\
  (forall a b : obj, exists r,
      mergeDefaults a b = VObj r /\ lookup r (KSym s) = lookup a (KSym s)) /\
  (forall args : list obj, lookup (merge args) (KSym s) = None).
Proof.
  intros s. split; [|split].
  - intros onlyPlain o. eexists. split; [reflexivity|].
    rewrite lookup_app, lookup_str_entries_sym, lookup_sym_entries_sym.
    apply (lookup_map_values (baseClone onlyPlain false)).
  - intros a b. unfold mergeDefaults.
    destruct (baseMerge_sym_preserved (VObj b) a (VObj a)) as [r [Hr Hs]];
      [exists a; auto|].
    exists r. split; [exact Hr | apply Hs].
  - intros args. apply merge_fuel_no_sym.
Qed.

(** ** C2, C3: mapWhereFieldNames on nested where clauses *)

(** C2 (code at the failing input): under [Op.or], a plain-object value is
    remapped, but the plain-object elements of an array value are not: the
    loop [for (let i = 0; i < attributes.length; i++)] runs over the length
    of the enclosing where object (undefined), not of the array. *)
Theorem C2_array_elements_not_remapped :
  mapWhereFieldNames (VObj [(KSym Op_or, VObj [(KStr "a", VNum 1)])]) exampleModel
    = Some (VObj [(KSym Op_or, VObj [(KStr "a_col", VNum 1)])]) /\
  mapWhereFieldNames (VObj [(KSym Op_or, VArr [VObj [(KStr "a", VNum 1)]])]) exampleModel
    = Some (VObj [(KSym Op_or, VArr [VObj [(KStr "a", VNum 1)]])]).
Proof. split; vm_compute; reflexivity. Qed.

(** C3 (code at the failing input): the plain-object value of a key that is
    not an attribute is recursed into, but the value of a renamed key is
    not: after the rename [attributes[attributeName]] has been deleted, so
    the recursion test reads undefined. *)
Theorem C3_renamed_key_value_not_recursed :
  mapWhereFieldNames (VObj [(KStr "x", VObj [(KStr "b", VNum 1)])]) exampleModel
    = Some (VObj [(KStr "x", VObj [(KStr "b_col", VNum 1)])]) /\
  mapWhereFieldNames (VObj [(KStr "a", VObj [(KStr "b", VNum 1)])]) exampleModel
    = Some (VObj [(KStr "a_col", VObj [(KStr "b", VNum 1)])]).
Proof. split; vm_compute; reflexivity. Qed.

(** ** C7: flattenObjectDeep *)

(** C7 (code at the failing input): below the root an empty key contributes
    an empty path segment, but an empty key at the root contributes nothing,
    because the parent path [""] is falsy in [subPath ? ... : key]. *)
Theorem C7_empty_root_key_loses_segment :
  flattenObjectDeep (VObj [(KStr "k", VObj [(KStr "", VObj [(KStr "a", VNum 1)])])])
    = VObj [(KStr "k..a", VNum 1)] /\
  flattenObjectDeep (VObj [(KStr "", VObj [(KStr "a", VNum 1)])])
    = VObj [(KStr "a", VNum 1)].
Proof. split; vm_compute; reflexivity. Qed.

(** ** C8: combineTableNames *)

(** C8: when the lowercased names differ, [combineTableNames] is
    commutative, and puts first the name that is smaller in lowercase. *)
Theorem C8_combineTableNames_commutative : forall a b : string,
  toLowerCase a <> toLowerCase b ->
  combineTableNames a b = combineTableNames b a /\
  (String.ltb (toLowerCase a) (toLowerCase b) = true -> combineTableNames a b = (a ++ b)%string) /\
  (String.ltb (toLowerCase b) (toLowerCase a) = true -> combineTableNames a b = (b ++ a)%string).
Proof.
  intros a b Hne. unfold combineTableNames, String.ltb.
  rewrite (String.compare_antisym (toLowerCase b) (toLowerCase a)).
  destruct (String.compare (toLowerCase a) (toLowerCase b)) eqn:E; simpl.
  - apply String.compare_eq_iff in E. contradiction.
  - repeat split; auto; discriminate.
  - repeat split; auto; discriminate.
Qed.

Lemma C8_witness :
  toLowerCase "Users" <> toLowerCase "accounts" /\
  combineTableNames "Users" "accounts" = combineTableNames "accounts" "Users".
Proof.
  assert (H : toLowerCase "Users" <> toLowerCase "accounts") by (vm_compute; discriminate).
  split; [exact H|].
  exact (proj1 (C8_combineTableNames_commutative "Users" "accounts" H)).
Defined.

(** ** C4: mapOptionFieldNames on the attributes list *)

(** C4: when [options.attributes] is an array, each string entry [attr]
    with a raw attribute whose [field] differs from [attr] becomes
    [[field, attr]]; non-string entries, and string entries with no raw
    attribute or whose [field] is [attr] itself, are kept. *)
Theorem C4_attributes_aliased : forall (options : finder_options) (M : model) (xs : list value),
  fo_attributes options = VArr xs ->
  exists ys, fo_attributes (mapOptionFieldNames options M) = VArr ys /\
    length ys = length xs /\
    forall i x, nth_error xs i = Some x ->
      (forall a r, x = VStr a -> rawAttr M a = Some r -> field r <> Some a ->
         nth_error ys i = Some (VArr [field_value r; VStr a])) /\
      ((forall a, x <> VStr a) -> nth_error ys i = Some x) /\
      (forall a, x = VStr a ->
         (rawAttr M a = None \/ exists r, rawAttr M a = Some r /\ field r = Some a) ->
         nth_error ys i = Some x).
Proof.
  intros options M xs Hxs. exists (map (mapAttr M) xs).
  unfold mapOptionFieldNames, mapOptionFieldNames_with. rewrite Hxs. simpl.
  split; [reflexivity|]. split; [apply length_map|].
  intros i x Hi. rewrite nth_error_map, Hi. simpl.
  split; [|split].
  - intros a r -> Hr Hf. unfold mapAttr. rewrite Hr.
    destruct (field r) as [f|] eqn:Ef; simpl; [|reflexivity].
    destruct (String.eqb a f) eqn:E; [|reflexivity].
    apply String.eqb_eq in E. subst. contradiction.
  - intros Hns. destruct x; try reflexivity. exfalso. eapply Hns; reflexivity.
  - intros a -> [Hr | [r [Hr Hf]]]; unfold mapAttr; rewrite Hr; [reflexivity|].
    rewrite Hf. simpl. now rewrite String.eqb_refl.
Qed.

Lemma C4_witness :
  fo_attributes {| fo_attributes := VArr [VStr "a"; VNum 3]; fo_where := VUndef |}
    = VArr [VStr "a"; VNum 3] /\
  fo_attributes (mapOptionFieldNames {| fo_attributes := VArr [VStr "a"; VNum 3]; fo_where := VUndef |}
                   exampleModel) = VArr [VArr [VStr "a_col"; VStr "a"]; VNum 3].
Proof.
  split; [reflexivity|].
  destruct (C4_attributes_aliased {| fo_attributes := VArr [VStr "a"; VNum 3]; fo_where := VUndef |}
              exampleModel _ eq_refl) as [ys [Hys [Hlen Hnth]]].
  rewrite Hys. f_equal.
  destruct ys as [|y0 [|y1 [|y2 ys']]]; try discriminate Hlen.
  destruct (Hnth 0 (VStr "a") eq_refl) as [H0 _].
  destruct (Hnth 1 (VNum 3) eq_refl) as [_ [H1 _]].
  specialize (H0 "a" {| field := Some "a_col"; fieldName := Some "a"; type := STRING_type |}
                eq_refl eq_refl ltac:(discriminate)).
  specialize (H1 ltac:(discriminate)).
  simpl in H0, H1. injection H0 as ->. injection H1 as ->. reflexivity.
Defined.

(** ** C6: behaviour on falsy and malformed input *)

Lemma fold_left_throw : forall {A : Type} (f : js_result A -> string -> js_result A) fields e,
  (forall e', f (Throw e') = fun _ => Throw e') -> fold_left f fields (Throw e) = Throw e.
Proof.
  intros A f fields. induction fields as [|x rest IH]; intros e Hf; simpl; [reflexivity|].
  rewrite Hf. apply IH, Hf.
Qed.

(** C6 (counterexample): not every utility returns a value on malformed
    input: [mapValueFieldNames(null, ['a'], Model)] throws a [TypeError]
    (reading [dataValues['a']] of null). *)
Lemma C6_mapValueFieldNames_throws_on_null :
  ~ (forall (dataValues : value) (fields : list string) (M : model),
       exists r, mapValueFieldNames dataValues fields M = Ok r).
Proof.
  intros H. destruct (H VNull ["a"] exampleModel) as [r Hr].
  vm_compute in Hr. discriminate Hr.
Qed.

(** C6 (amended): [mapWhereFieldNames] returns a falsy argument unchanged,
    [flattenObjectDeep] returns a non-plain-object argument unchanged and
    [cloneDeep] clones a falsy argument as [{}]; but [mapValueFieldNames]
    throws a [TypeError] when [dataValues] is null or undefined and the
    fields list is not empty. *)
Theorem C6_falsy_inputs : 
  (forall (v : value) (M : model), truthy v = false -> mapWhereFieldNames v M = Some v) /\
  (forall v : value, isPlainObject v = false -> flattenObjectDeep v = v) /\
  (forall (onlyPlain : bool) (v : value), truthy v = false -> cloneDeep onlyPlain v = VObj []) /\
  (forall (dataValues : value) (fields : list string) (M : model),
     is_nullish dataValues = true -> fields <> [] ->
     mapValueFieldNames dataValues fields M = Throw "TypeError").
Proof.
  split; [|split; [|split]].
  - intros v M Hv. unfold mapWhereFieldNames. now rewrite Hv.
  - intros v Hv. unfold flattenObjectDeep. now rewrite Hv.
  - intros onlyPlain v Hv. unfold cloneDeep. now rewrite Hv.
  - intros dataValues fields M Hn Hf.
    destruct fields as [|attr rest]; [contradiction|].
    destruct dataValues; try discriminate Hn; simpl;
      apply fold_left_throw; reflexivity.
Qed.

Lemma C6_witness :
  truthy VNull = false /\ mapWhereFieldNames VNull exampleModel = Some VNull /\
  mapValueFieldNames VUndef ["a"] exampleModel = Throw "TypeError".
Proof.
  split; [reflexivity|]. split.
  - apply (proj1 C6_falsy_inputs). reflexivity.
  - apply (proj2 (proj2 (proj2 C6_falsy_inputs))); [reflexivity | discriminate].
Defined.

(** ** C9: removeNullValuesFromHash *)

Lemma fold_keep_lookup : forall (P : string -> value -> bool) (es : list (string * value)) acc k,
  NoDup (map fst es) ->
  lookup (fold_left (fun (_hash : obj) (kv : string * value) =>
                       let (k, val) := kv in if P k val then set _hash (KStr k) val else _hash)
                    es acc) (KStr k) =
  match assoc es k with
  | Some v => if P k v then Some v else lookup acc (KStr k)
  | None => lookup acc (KStr k)
  end.
Proof.
  intros P es. induction es as [|[k' v'] rest IH]; intros acc k Hnd; simpl; [reflexivity|].
  inversion Hnd as [|? ? Hnin Hnd']; subst.
  rewrite IH by exact Hnd'.
  destruct (String.eqb k k') eqn:E.
  - apply String.eqb_eq in E. subst k'.
    assert (Hnone : assoc rest k = None).
    { clear -Hnin. induction rest as [|[k0 v0] rest IH]; simpl in *; [reflexivity|].
      destruct (String.eqb k k0) eqn:E0.
      - apply String.eqb_eq in E0. subst. exfalso. apply Hnin. now left.
      - apply IH. intros H. apply Hnin. now right. }
    rewrite Hnone. destruct (P k v'); [apply lookup_set_same | reflexivity].
  - assert (Hne : KStr k <> KStr k').
    { intros H. injection H as ->. now rewrite String.eqb_refl in E. }
    destruct (assoc rest k) as [v|]; [destruct (P k v); [reflexivity|]|];
      destruct (P k' v'); try reflexivity; apply lookup_set_other, Hne.
Qed.

Lemma fold_keep_sym : forall (P : string -> value -> bool) (es : list (string * value)) acc s,
  lookup (fold_left (fun (_hash : obj) (kv : string * value) =>
                       let (k, val) := kv in if P k val then set _hash (KStr k) val else _hash)
                    es acc) (KSym s) = lookup acc (KSym s).
Proof.
  intros P es. induction es as [|[k' v'] rest IH]; intros acc s; simpl; [reflexivity|].
  rewrite IH. destruct (P k' v'); [apply lookup_set_str_sym | reflexivity].
Qed.

Lemma forIn_obj_assoc : forall o k, assoc (forInEntries (VObj o)) k = lookup o (KStr k).
Proof.
  induction o as [|[[k'|s'] v'] rest IH]; intros k; simpl in *; [reflexivity| |apply IH].
  destruct (String.eqb k k'); [reflexivity|]. apply IH.
Qed.

Lemma forIn_obj_in : forall o k, In k (map fst (forInEntries (VObj o))) -> In (KStr k) (map fst o).
Proof.
  induction o as [|[[k'|s'] v'] rest IH]; intros k H; simpl in *; [contradiction| |right; now apply IH].
  destruct H as [<- | H]; [now left | right; now apply IH].
Qed.

Lemma forIn_obj_nodup : forall o, NoDup (map fst o) -> NoDup (map fst (forInEntries (VObj o))).
Proof.
  induction o as [|[[k'|s'] v'] rest IH]; intros Hnd; simpl in *; [constructor| |];
    inversion Hnd as [|? ? Hnin Hnd']; subst.
  - constructor; [|now apply IH]. intros H. apply Hnin. now apply forIn_obj_in.
  - now apply IH.
Qed.

(** C9 (counterexample): the claim that every key with a non-null value is
    kept fails for symbol keys: [removeNullValuesFromHash({[Op.eq]: 1}, true)]
    is [{}], since lodash [forIn] visits string keys only. *)
Lemma C9_symbol_key_dropped :
  ~ (forall (o : obj) (allowNull : option (list string)) (k : key) (v : value),
       lookup o k = Some v -> is_nullish v = false ->
       exists r, removeNullValuesFromHash (VObj o) true allowNull = VObj r /\ lookup r k = Some v).
Proof.
  intros H.
  destruct (H [(KSym Op_eq, VNum 1)] None (KSym Op_eq) (VNum 1) eq_refl eq_refl) as [r [Hr Hk]].
  vm_compute in Hr. injection Hr as <-. discriminate Hk.
Qed.

(** C9 (amended): with [omitNull] false the hash itself is returned; with
    [omitNull] true the result keeps exactly the string keys of the hash
    whose value is neither null nor undefined, or which end with ["Id"], or
    are listed in [allowNull], each with its value; symbol keys are
    dropped. *)
Theorem C9_removeNullValuesFromHash_keys : forall (hash : value) (allowNull : option (list string)),
  removeNullValuesFromHash hash false allowNull = hash /\
  forall o : obj, hash = VObj o -> NoDup (map fst o) ->
  exists r, removeNullValuesFromHash hash true allowNull = VObj r /\
    (forall s, lookup r (KSym s) = None) /\
    (forall k v, lookup r (KStr k) = Some v <->
       lookup o (KStr k) = Some v /\
       (In k (match allowNull with Some l => l | None => [] end) \/
        endsWith k "Id" = true \/ is_nullish v = false)).
Proof.
  intros hash allowNull. split; [reflexivity|].
  intros o -> Hnd. eexists. split; [reflexivity|]. split.
  - intros s. rewrite fold_keep_sym. reflexivity.
  - intros k v.
    rewrite (fold_keep_lookup (keepEntry (match allowNull with Some l => l | None => [] end)))
      by now apply forIn_obj_nodup.
    rewrite forIn_obj_assoc. simpl.
    destruct (lookup o (KStr k)) as [v'|]; [|split; [discriminate | intros [H _]; discriminate H]].
    unfold keepEntry.
    destruct (existsb (String.eqb k) _) eqn:Ea; simpl.
    + split; [intros H; split; [exact H | left] | intros [H _]; exact H].
      apply existsb_exists in Ea as [x [Hx Ex]]. apply String.eqb_eq in Ex. now subst.
    + assert (Hna : ~ In k (match allowNull with Some l => l | None => [] end)).
      { intros Hin. rewrite <- Bool.not_true_iff_false in Ea. apply Ea, existsb_exists.
        exists k. split; [exact Hin | apply String.eqb_refl]. }
      destruct (endsWith k "Id") eqn:Ei; simpl.
      * split; [intros H; split; [exact H | right; left; reflexivity] | intros [H _]; exact H].
      * destruct (is_nullish v') eqn:En; simpl.
        -- split; [discriminate|]. intros [H [H1 | [H1 | H1]]]; [contradiction | discriminate |].
           injection H as <-. congruence.
        -- split; [intros H; split; [exact H|] | intros [H _]; exact H].
           injection H as <-. right; right; exact En.
Qed.

Lemma C9_witness :
  NoDup (map fst [(KStr "userId", VNull); (KStr "name", VNull)]) /\
  removeNullValuesFromHash (VObj [(KStr "userId", VNull); (KStr "name", VNull)]) true None
    = VObj [(KStr "userId", VNull)].
Proof.
  assert (Hnd : NoDup (map fst [(KStr "userId", VNull); (KStr "name", VNull)])).
  { repeat constructor; simpl; intuition discriminate. }
  split; [exact Hnd|].
  destruct (proj2 (C9_removeNullValuesFromHash_keys
                     (VObj [(KStr "userId", VNull); (KStr "name", VNull)]) None) _ eq_refl Hnd)
    as [r [Hr _]].
  rewrite Hr. vm_compute in Hr. symmetry. exact Hr.
Defined.

(** ** C10: mapValueFieldNames *)

Lemma mapValueFieldNames_obj : forall o fields M acc,
  fold_left
    (fun (acc : js_result obj) (attr : string) =>
       values <- acc ;;
       v <- getProp (VObj o) attr ;;
       if negb (is_undefined v) && negb (isVirtual M attr) then
         match rawAttr M attr with
         | Some r =>
             match field r with
             | Some f =>
                 if truthy (VStr f) && negb (String.eqb f attr)
                 then Ok (set values (KStr f) v)
                 else Ok (set values (KStr attr) v)
             | None => Ok (set values (KStr attr) v)
             end
         | None => Ok (set values (KStr attr) v)
         end
       else Ok values)
    fields (Ok acc) =
  Ok (fold_left (fun values attr =>
                   if qualifies o M attr
                   then set values (KStr (mappedName M attr)) (get o (KStr attr))
                   else values) fields acc).
Proof.
  intros o fields M. induction fields as [|attr rest IH]; intros acc; simpl; [reflexivity|].
  rewrite <- IH. f_equal. unfold qualifies, mappedName.
  destruct (negb _ && negb _); [|reflexivity].
  destruct (rawAttr M attr) as [r|]; [|reflexivity].
  destruct (field r) as [f|]; [|reflexivity].
  simpl. destruct (negb (String.eqb f "") && negb (String.eqb f attr)); reflexivity.
Qed.

Lemma snoc_decompose : forall {A : Type} (l : list A) x pre a post,
  l ++ [x] = pre ++ a :: post ->
  (post = [] /\ pre = l /\ a = x) \/ (exists p', post = p' ++ [x] /\ l = pre ++ a :: p').
Proof.
  intros A l x pre a post. revert l x pre a.
  induction post as [|y p' _] using rev_ind; intros l x pre a H.
  - left. apply app_inj_tail in H as [-> ->]. auto.
  - right. rewrite app_comm_cons, app_assoc in H.
    apply app_inj_tail in H as [-> ->]. eauto.
Qed.

(** C10 (counterexample): the claim that every copied attribute gets an
    entry with its own value fails when two attributes map to one key: with
    [a] stored in column [b] next to an attribute [b], [mapValueFieldNames]
    of [{a: 1, b: 2}] over [['a', 'b']] is [{b: 2}]. *)
Lemma C10_colliding_names :
  ~ (forall (o : obj) (fields : list string) (M : model),
       exists r, mapValueFieldNames (VObj o) fields M = Ok r /\
       forall attr, In attr fields -> qualifies o M attr = true ->
         lookup r (KStr (mappedName M attr)) = Some (get o (KStr attr))).
Proof.
  intros H.
  destruct (H [(KStr "a", VNum 1); (KStr "b", VNum 2)] ["a"; "b"] collidingModel)
    as [r [Hr Hall]].
  vm_compute in Hr. injection Hr as <-.
  specialize (Hall "a" (or_introl eq_refl) eq_refl).
  vm_compute in Hall. discriminate Hall.
Qed.

(** C10 (amended): the keys of the result are the mapped names (the
    physical field when it is set and differs from [attr], [attr] otherwise)
    of the attributes of [fields] whose value is defined and which are not
    virtual; the value under a key is [dataValues[attr]] for the last such
    attribute of the list mapped to that key. *)
Theorem C10_mapValueFieldNames_entries : forall (o : obj) (fields : list string) (M : model),
  exists r, mapValueFieldNames (VObj o) fields M = Ok r /\
    (forall s, lookup r (KSym s) = None) /\
    forall k v, lookup r (KStr k) = Some v <->
      exists pre attr post, fields = pre ++ attr :: post /\
        qualifies o M attr = true /\ mappedName M attr = k /\ v = get o (KStr attr) /\
        (forall attr', In attr' post -> qualifies o M attr' = true -> mappedName M attr' <> k).
Proof.
  intros o fields M. unfold mapValueFieldNames. rewrite mapValueFieldNames_obj.
  eexists. split; [reflexivity|]. split.
  - intros s.
    apply (fold_left_inv (fun r => lookup r (KSym s) = None)); [|reflexivity].
    intros r attr Hr. destruct (qualifies o M attr); [rewrite lookup_set_str_sym|]; exact Hr.
  - induction fields as [|x l IH] using rev_ind; intros k v.
    + simpl. split; [discriminate|].
      intros [pre [attr [post [H _]]]]. destruct pre; discriminate H.
    + rewrite fold_left_app. simpl.
      set (r := fold_left (fun (values : obj) (attr : string) =>
                             if qualifies o M attr
                             then set values (KStr (mappedName M attr)) (get o (KStr attr))
                             else values) l []) in *.
      destruct (qualifies o M x && String.eqb (mappedName M x) k) eqn:Ex.
      * apply andb_true_iff in Ex as [Hq Hk]. apply String.eqb_eq in Hk.
        rewrite Hq, Hk, lookup_set_same. split.
        -- intros H. injection H as <-. exists l, x, []. repeat split; auto.
        -- intros [pre [attr [post [Hl [Hqa [Hka [Hv Hpost]]]]]]].
           destruct (snoc_decompose l x pre attr post Hl) as [[-> [-> ->]] | [p' [-> _]]].
           ++ now subst v.
           ++ exfalso. apply (Hpost x); [apply in_or_app; right; now left | exact Hq | exact Hk].
      * assert (Hlk : lookup (if qualifies o M x
                              then set r (KStr (mappedName M x)) (get o (KStr x)) else r)
                        (KStr k) = lookup r (KStr k)).
        { destruct (qualifies o M x) eqn:Hq; [|reflexivity].
          apply lookup_set_other. intros H. injection H as H. subst k.
          simpl in Ex. now rewrite String.eqb_refl in Ex. }
        rewrite Hlk, IH. split.
        -- intros [pre [attr [post [Hl [Hqa [Hka [Hv Hpost]]]]]]].
           exists pre, attr, (post ++ [x]). subst l. repeat split; auto.
           ++ now rewrite <- app_assoc.
           ++ intros a' Ha' Hqa'. apply in_app_or in Ha' as [Ha' | [<- | []]]; [now apply Hpost|].
              intros Hm. rewrite Hqa', Hm, String.eqb_refl in Ex. discriminate.
        -- intros [pre [attr [post [Hl [Hqa [Hka [Hv Hpost]]]]]]].
           destruct (snoc_decompose l x pre attr post Hl) as [[-> [-> ->]] | [p' [-> Hl']]].
           ++ rewrite Hqa, Hka, String.eqb_refl in Ex. discriminate.
           ++ exists pre, attr, p'. repeat split; auto.
              intros a' Ha'. apply Hpost, in_or_app. now left.
Qed.

(** * Further properties of the utilities *)

(** ** More on the object primitives *)

Lemma key_eqb_false_neq : forall a b, key_eqb a b = false -> a <> b.
Proof. intros a b E ->. rewrite key_eqb_refl in E. discriminate. Qed.

Lemma fold_left_inv_in {A B : Type} (P : A -> Prop) (f : A -> B -> A) :
  forall l a, (forall a b, In b l -> P a -> P (f a b)) -> P a -> P (fold_left f l a).
Proof.
  induction l as [|b l IH]; intros a Hf Ha; simpl; [exact Ha|].
  apply IH; [intros a' b' Hb'; apply Hf; simpl; auto | apply Hf; simpl; auto].
Qed.

(** A fold whose step for [b] only writes the key [kf b]. *)
Lemma fold_frame {B : Type} (f : obj -> B -> obj) (kf : B -> key) :
  (forall a b x, x <> kf b -> lookup (f a b) x = lookup a x) ->
  forall l a x, ~ In x (map kf l) -> lookup (fold_left f l a) x = lookup a x.
Proof.
  intros Hf l. induction l as [|b l IH]; intros a x Hx; simpl; [reflexivity|].
  simpl in Hx. rewrite IH by tauto. apply Hf. intros ->. tauto.
Qed.

Lemma lookup_del_same : forall o k, lookup (del o k) k = None.
Proof.
  induction o as [|[k' v'] rest IH]; intros k; simpl; [reflexivity|].
  destruct (key_eqb k k') eqn:E; simpl; [apply IH|]. rewrite E. apply IH.
Qed.

Lemma lookup_del_other : forall o k x, x <> k -> lookup (del o k) x = lookup o x.
Proof.
  induction o as [|[k' v'] rest IH]; intros k x Hne; simpl; [reflexivity|].
  destruct (key_eqb k k') eqn:E; simpl.
  - apply key_eqb_eq in E; subst k'. rewrite (key_eqb_neq x k Hne). apply IH, Hne.
  - destruct (key_eqb x k'); [reflexivity|]. apply IH, Hne.
Qed.

Lemma lookup_In : forall o k v, lookup o k = Some v -> In (k, v) o.
Proof.
  induction o as [|[k' v'] rest IH]; intros k v; simpl; [discriminate|].
  destruct (key_eqb k k') eqn:E.
  - apply key_eqb_eq in E; subst. intros [=->]. now left.
  - intros H. right. now apply IH.
Qed.

Lemma lookup_None : forall o k, lookup o k = None <-> ~ In k (map fst o).
Proof.
  induction o as [|[k' v'] rest IH]; intros k; simpl; [tauto|].
  destruct (key_eqb k k') eqn:E.
  - apply key_eqb_eq in E; subst. split; [discriminate | tauto].
  - apply key_eqb_false_neq in E. rewrite IH. split; [|tauto].
    intros H [H'|H']; [congruence | tauto].
Qed.

Lemma In_lookup : forall o k, In k (map fst o) -> exists v, lookup o k = Some v.
Proof.
  intros o k H. destruct (lookup o k) as [v|] eqn:E; [now exists v|].
  apply lookup_None in E. tauto.
Qed.

Lemma In_lookup_nodup : forall o k v, NoDup (map fst o) -> In (k, v) o -> lookup o k = Some v.
Proof.
  induction o as [|[k' v'] rest IH]; intros k v Hnd Hin; simpl in *; [contradiction|].
  inversion Hnd as [|? ? Hnot Hnd']; subst.
  destruct Hin as [[=<- <-]|Hin].
  - now rewrite key_eqb_refl.
  - destruct (key_eqb k k') eqn:E.
    + apply key_eqb_eq in E; subst. exfalso. apply Hnot.
      change k' with (fst (k', v)). now apply in_map.
    + now apply IH.
Qed.

Lemma in_objectKeys : forall o s, In s (objectKeys o) <-> In (KStr s) (map fst o).
Proof.
  unfold objectKeys.
  induction o as [|[[s'|s'] v] rest IH]; intros s; simpl; [tauto| |].
  - rewrite IH. split; intros [H|H]; auto; left; congruence.
  - rewrite IH. split; [auto | intros [H|H]; [discriminate | exact H]].
Qed.

Lemma in_ownSymbols : forall o s, In s (ownSymbols o) <-> In (KSym s) (map fst o).
Proof.
  unfold ownSymbols.
  induction o as [|[[s'|s'] v] rest IH]; intros s; simpl; [tauto| |].
  - rewrite IH. split; [auto | intros [H|H]; [discriminate | exact H]].
  - rewrite IH. split; intros [H|H]; auto; left; congruence.
Qed.

Lemma objectKeys_nodup : forall o, NoDup (map fst o) -> NoDup (objectKeys o).
Proof.
  induction o as [|[[s|s] v] rest IH]; intros Hnd; simpl in *; [constructor| |];
    inversion Hnd as [|? ? Hnot Hnd']; subst.
  - constructor; [rewrite in_objectKeys; exact Hnot | now apply IH].
  - now apply IH.
Qed.

Lemma ownSymbols_nodup : forall o, NoDup (map fst o) -> NoDup (ownSymbols o).
Proof.
  induction o as [|[[s|s] v] rest IH]; intros Hnd; simpl in *; [constructor| |];
    inversion Hnd as [|? ? Hnot Hnd']; subst.
  - now apply IH.
  - constructor; [rewrite in_ownSymbols; exact Hnot | now apply IH].
Qed.

Lemma in_getComplexKeys : forall o k,
  In k (getComplexKeys o) <->
  In k (map fst o) /\ match k with KStr _ => True | KSym s => operatorsSet_has s = true end.
Proof.
  intros o k. unfold getComplexKeys, getOperators.
  rewrite in_app_iff, (in_map_iff KSym), (in_map_iff KStr).
  split.
  - intros [[s [<- Hs]] | [s [<- Hs]]].
    + apply filter_In in Hs as [Hs Hop]. rewrite in_ownSymbols in Hs. now split.
    + rewrite in_objectKeys in Hs. now split.
  - destruct k as [s|s]; intros [Hin Hk].
    + right. exists s. rewrite in_objectKeys. now split.
    + left. exists s. rewrite filter_In, in_ownSymbols. now split.
Qed.

Lemma nodup_map_inj {A B : Type} (f : A -> B) :
  (forall x y, f x = f y -> x = y) -> forall l, NoDup l -> NoDup (map f l).
Proof.
  intros Hf l Hnd. induction Hnd as [|x l Hx Hnd IH]; simpl; constructor; [|exact IH].
  intros Hin. apply in_map_iff in Hin as [y [Hy Hin]]. apply Hf in Hy. subst. contradiction.
Qed.

Lemma getComplexKeys_nodup : forall o, NoDup (map fst o) -> NoDup (getComplexKeys o).
Proof.
  intros o Hnd. unfold getComplexKeys, getOperators. apply NoDup_app.
  - apply nodup_map_inj; [intros x y [=]; auto|].
    apply NoDup_filter, ownSymbols_nodup, Hnd.
  - apply nodup_map_inj; [intros x y [=]; auto|]. apply objectKeys_nodup, Hnd.
  - intros k Hk Hk'. apply in_map_iff in Hk as [s [<- _]].
    apply in_map_iff in Hk' as [s' [Heq _]]. discriminate.
Qed.

(** Splitting a list without duplicates at one of its elements. *)
Lemma nodup_split {A : Type} : forall (l : list A) x,
  NoDup l -> In x l -> exists pre post, l = pre ++ x :: post /\ ~ In x pre /\ ~ In x post.
Proof.
  intros l x Hnd Hin. destruct (in_split x l Hin) as [pre [post ->]].
  exists pre, post. split; [reflexivity|].
  apply NoDup_remove_2 in Hnd. rewrite in_app_iff in Hnd. tauto.
Qed.

(** ** defaults *)

(** Writing the entries of one source: a key already holding a defined
    value keeps it. *)
Lemma defaults_source_keeps : forall es a k v,
  lookup a k = Some v -> v <> VUndef ->
  lookup (fold_left
            (fun (objectIn : obj) (kv : key * value) =>
               let (key, v) := kv in
               if is_undefined (get objectIn key) then set objectIn key v else objectIn)
            es a) k = Some v.
Proof.
  intros es a k v Ha Hv.
  apply (fold_left_inv (fun o => lookup o k = Some v)); [|exact Ha].
  intros b [key x] Hb. destruct (is_undefined (get b key)) eqn:E; [|exact Hb].
  destruct (key_eqb k key) eqn:Ek.
  - apply key_eqb_eq in Ek; subst key. unfold get in E. rewrite Hb in E.
    destruct v; try discriminate. contradiction.
  - rewrite lookup_set_other by (apply key_eqb_false_neq, Ek). exact Hb.
Qed.

(** Writing the entries of one source: an undefined property receives the
    value of its entry. *)
Lemma defaults_source_at : forall es a k w,
  NoDup (map fst es) -> In (k, w) es -> is_undefined (get a k) = true ->
  lookup (fold_left
            (fun (objectIn : obj) (kv : key * value) =>
               let (key, v) := kv in
               if is_undefined (get objectIn key) then set objectIn key v else objectIn)
            es a) k = Some w.
Proof.
  induction es as [|[k' w'] es IH]; intros a k w Hnd Hin Hundef; [contradiction|].
  simpl in Hnd. inversion Hnd as [|? ? Hnot Hnd']; subst. simpl.
  destruct Hin as [[=-> ->]|Hin].
  - rewrite Hundef. rewrite (fold_frame _ fst); [apply lookup_set_same| |exact Hnot].
    intros b [key x'] x Hx. simpl in Hx.
    destruct (is_undefined (get b key)); [now apply lookup_set_other | reflexivity].
  - assert (Hne : k <> k').
    { intros ->. apply Hnot. change k' with (fst (k', w)). now apply in_map. }
    apply IH; [exact Hnd' | exact Hin|].
    destruct (is_undefined (get a k')); [|exact Hundef].
    unfold get. rewrite lookup_set_other by exact Hne. exact Hundef.
Qed.

(** [defaults] never overwrites a property that holds a defined value. *)
Theorem defaults_keeps_defined : forall objectIn sources k v,
  lookup objectIn k = Some v -> v <> VUndef ->
  lookup (defaults objectIn sources) k = Some v.
Proof.
  intros objectIn sources k v Hk Hv. unfold defaults.
  apply (fold_left_inv (fun o => lookup o k = Some v)); [|exact Hk].
  intros a source Ha. destruct (negb (truthy source)); [exact Ha|].
  now apply defaults_source_keeps.
Qed.

Lemma defaults_witness_keeps :
  lookup [(KStr "a", VNum 1)] (KStr "a") = Some (VNum 1) /\ VNum 1 <> VUndef /\
  lookup (defaults [(KStr "a", VNum 1)] [VObj [(KStr "a", VNum 2)]]) (KStr "a") = Some (VNum 1).
Proof.
  split; [reflexivity|]. split; [discriminate|].
  apply defaults_keeps_defined; [reflexivity | discriminate].
Defined.

(** A property of [objectIn] that is missing or undefined is filled with the
    value the source has under that key, provided [getComplexKeys] lists
    the key: a string key or an operator symbol. *)
Theorem defaults_fills_missing : forall objectIn src k w,
  NoDup (map fst src) -> lookup src k = Some w ->
  match k with KStr _ => True | KSym s => operatorsSet_has s = true end ->
  is_undefined (get objectIn k) = true ->
  lookup (defaults objectIn [VObj src]) k = Some w.
Proof.
  intros objectIn src k w Hnd Hw Hk Hundef.
  unfold defaults. simpl. unfold complexEntries.
  assert (Hin : In k (getComplexKeys src)).
  { apply in_getComplexKeys. split; [|exact Hk].
    change k with (fst (k, w)). apply in_map, lookup_In, Hw. }
  apply defaults_source_at; [| |exact Hundef].
  - rewrite map_map. simpl. rewrite map_id. apply getComplexKeys_nodup, Hnd.
  - apply in_map_iff. exists k. split; [|exact Hin]. unfold get. now rewrite Hw.
Qed.

Lemma defaults_witness_fills :
  NoDup (map fst [(KStr "a", VNum 2)]) /\
  lookup [(KStr "a", VNum 2)] (KStr "a") = Some (VNum 2) /\
  is_undefined (get [] (KStr "a")) = true /\
  lookup (defaults [] [VObj [(KStr "a", VNum 2)]]) (KStr "a") = Some (VNum 2).
Proof.
  split; [repeat constructor; simpl; tauto|]. split; [reflexivity|]. split; [reflexivity|].
  apply defaults_fills_missing; [repeat constructor; simpl; tauto | reflexivity | exact I | reflexivity].
Defined.

(** [defaults] never copies a symbol that is not an operator: such a key of
    [objectIn] keeps its value (or stays absent), whatever the sources. *)
Theorem defaults_ignores_plain_symbols : forall objectIn sources s,
  operatorsSet_has s = false ->
  lookup (defaults objectIn sources) (KSym s) = lookup objectIn (KSym s).
Proof.
  intros objectIn sources s Hs. unfold defaults.
  apply (fold_left_inv_in (fun o => lookup o (KSym s) = lookup objectIn (KSym s))); [|reflexivity].
  intros a source _ Ha. destruct (negb (truthy source)); [exact Ha|].
  rewrite <- Ha. apply (fold_frame _ fst).
  - intros b [key x'] x Hx. simpl in Hx.
    destruct (is_undefined (get b key)); [now apply lookup_set_other | reflexivity].
  - intros Hin. apply in_map_iff in Hin as [[key x] [Hkey Hin]]. simpl in Hkey. subst key.
    destruct source; simpl in Hin; try contradiction.
    + apply in_map_iff in Hin as [i [[=] _]].
    + apply in_map_iff in Hin as [k [[= Hk0 _] Hk]]. subst k.
      apply in_getComplexKeys in Hk as [_ Hop]. congruence.
    + apply in_combine_l, in_map_iff in Hin as [i [[=] _]].
Qed.

Lemma defaults_witness_symbols :
  operatorsSet_has (SymFor "custom") = false /\
  lookup (defaults [] [VObj [(KSym (SymFor "custom"), VNum 1)]]) (KSym (SymFor "custom")) = None.
Proof.
  split; [reflexivity|].
  rewrite (defaults_ignores_plain_symbols [] _ (SymFor "custom")); reflexivity.
Defined.

(** ** mapFinderOptions and mapOptionFieldNames *)

Lemma mapAttr_str : forall M x s, mapAttr M x = VStr s -> x = VStr s.
Proof.
  intros M x s. destruct x as [| | | |a| | | |]; simpl; try discriminate; try (intros H; exact H).
  destruct (rawAttr M a); [|tauto]. destruct (negb _); [discriminate | tauto].
Qed.

Lemma mapAttr_idem : forall M x, mapAttr M (mapAttr M x) = mapAttr M x.
Proof.
  intros M x. destruct x as [| | | |s| | | |]; try reflexivity.
  remember (mapAttr M (VStr s)) as y eqn:Hy. simpl in Hy.
  destruct (rawAttr M s) eqn:E; [destruct (negb _) eqn:E'|]; subst y; [reflexivity| |];
    simpl; rewrite E; [rewrite E'|]; reflexivity.
Qed.

(** After [mapFinderOptions], an attributes array holds no virtual
    attribute name, whatever [_injectDependentVirtualAttributes] returned:
    they are filtered out, and the remaining names are kept or aliased. *)
Theorem mapFinderOptions_no_virtual : forall inject options M xs,
  fo_attributes options = VArr xs ->
  exists ys, fo_attributes (mapFinderOptions inject options M) = VArr ys /\
             forall s, In (VStr s) ys -> isVirtual M s = false.
Proof.
  intros inject options M xs Hxs. unfold mapFinderOptions. rewrite Hxs.
  simpl. eexists. split; [reflexivity|].
  intros s Hin. apply in_map_iff in Hin as [x [Hx Hin]].
  apply mapAttr_str in Hx. subst x. apply filter_In in Hin as [_ Hv].
  simpl in Hv. now destruct (isVirtual M s).
Qed.

Lemma mapFinderOptions_witness :
  fo_attributes {| fo_attributes := VArr [VStr "a"]; fo_where := VUndef |} = VArr [VStr "a"] /\
  exists ys, fo_attributes (mapFinderOptions (fun xs => VStr "v" :: xs)
                              {| fo_attributes := VArr [VStr "a"]; fo_where := VUndef |}
                              {| rawAttributes := rawAttributes exampleModel;
                                 virtualAttributes := ["v"] |}) = VArr ys /\
             forall s, In (VStr s) ys ->
                       isVirtual {| rawAttributes := rawAttributes exampleModel;
                                    virtualAttributes := ["v"] |} s = false.
Proof.
  split; [reflexivity|]. apply mapFinderOptions_no_virtual with (xs := [VStr "a"]). reflexivity.
Defined.

(** Mapping the attributes is idempotent: a second [mapOptionFieldNames]
    leaves the aliased [[field, attr]] pairs and the kept names as they are. *)
Theorem mapOptionFieldNames_attributes_idempotent : forall options M,
  fo_attributes (mapOptionFieldNames (mapOptionFieldNames options M) M)
  = fo_attributes (mapOptionFieldNames options M).
Proof.
  intros [attrs w] M. unfold mapOptionFieldNames, mapOptionFieldNames_with. simpl.
  destruct attrs; try reflexivity.
  rewrite map_map. f_equal. apply map_ext, mapAttr_idem.
Qed.

(** ** camelizeObjectKeys *)

(** Every property of the result is an own string-keyed property of the
    input under its camelized name; symbols are dropped. *)
Theorem camelizeObjectKeys_sound : forall camelize o x v,
  lookup (camelizeObjectKeys camelize o) x = Some v ->
  exists k, x = KStr (camelize k) /\ lookup o (KStr k) = Some v.
Proof.
  intros camelize o. unfold camelizeObjectKeys.
  apply (fold_left_inv_in
           (fun r => forall x v, lookup r x = Some v ->
                     exists k, x = KStr (camelize k) /\ lookup o (KStr k) = Some v));
    [|discriminate].
  intros r key Hkey Hr x v Hx.
  destruct (key_eqb x (KStr (camelize key))) eqn:E.
  - apply key_eqb_eq in E. subst x. rewrite lookup_set_same in Hx. injection Hx as <-.
    exists key. split; [reflexivity|].
    apply in_objectKeys, In_lookup in Hkey as [v' Hv']. unfold get. now rewrite Hv'.
  - rewrite lookup_set_other in Hx by (apply key_eqb_false_neq, E). now apply Hr.
Qed.

Lemma camelizeObjectKeys_sound_witness :
  lookup (camelizeObjectKeys (fun s => String.append s "!") [(KStr "a", VNum 1); (KSym Op_or, VNum 2)])
    (KStr "a!") = Some (VNum 1) /\
  exists k, KStr "a!" = KStr (String.append k "!") /\
            lookup [(KStr "a", VNum 1); (KSym Op_or, VNum 2)] (KStr k) = Some (VNum 1).
Proof.
  split; [reflexivity|].
  apply (camelizeObjectKeys_sound (fun s => String.append s "!")
           [(KStr "a", VNum 1); (KSym Op_or, VNum 2)] (KStr "a!") (VNum 1)).
  reflexivity.
Defined.

(** When [camelize] does not merge two keys of the input, each own string
    key [k] is found under [camelize(k)] with its value. *)
Theorem camelizeObjectKeys_complete : forall camelize o k v,
  (forall k1 k2, In k1 (objectKeys o) -> In k2 (objectKeys o) ->
                 camelize k1 = camelize k2 -> k1 = k2) ->
  lookup o (KStr k) = Some v ->
  lookup (camelizeObjectKeys camelize o) (KStr (camelize k)) = Some v.
Proof.
  intros camelize o k v Hinj Hk. unfold camelizeObjectKeys.
  assert (Hin : In k (objectKeys o)).
  { apply in_objectKeys. change (KStr k) with (fst (KStr k, v)). apply in_map, lookup_In, Hk. }
  assert (Hv : get o (KStr k) = v) by (unfold get; now rewrite Hk).
  assert (Hgen : forall l acc, incl l (objectKeys o) ->
            lookup acc (KStr (camelize k)) = Some v \/ In k l ->
            lookup (fold_left (fun newObj key => set newObj (KStr (camelize key)) (get o (KStr key)))
                              l acc) (KStr (camelize k)) = Some v).
  { induction l as [|key l IH]; intros acc Hincl Hacc; simpl.
    - destruct Hacc as [Hacc|[]]. exact Hacc.
    - apply IH; [intros y Hy; apply Hincl; now right|].
      destruct (String.eqb key k) eqn:E.
      + apply String.eqb_eq in E. subst key. left. rewrite Hv. apply lookup_set_same.
      + apply String.eqb_neq in E.
        assert (Hne : camelize key <> camelize k).
        { intros Hc. apply E, Hinj; [apply Hincl; now left | exact Hin | exact Hc]. }
        rewrite lookup_set_other by congruence.
        destruct Hacc as [Hacc|[Heq|Hacc]]; auto. congruence. }
  apply Hgen; [intros y Hy; exact Hy | now right].
Qed.

Lemma camelizeObjectKeys_witness :
  (forall k1 k2, In k1 (objectKeys [(KStr "userId", VNum 1); (KStr "Name", VNum 2)]) ->
                 In k2 (objectKeys [(KStr "userId", VNum 1); (KStr "Name", VNum 2)]) ->
                 toLowerCase k1 = toLowerCase k2 -> k1 = k2) /\
  lookup [(KStr "userId", VNum 1); (KStr "Name", VNum 2)] (KStr "Name") = Some (VNum 2) /\
  lookup (camelizeObjectKeys toLowerCase [(KStr "userId", VNum 1); (KStr "Name", VNum 2)])
    (KStr (toLowerCase "Name")) = Some (VNum 2).
Proof.
  assert (Hinj : forall k1 k2, In k1 (objectKeys [(KStr "userId", VNum 1); (KStr "Name", VNum 2)]) ->
                 In k2 (objectKeys [(KStr "userId", VNum 1); (KStr "Name", VNum 2)]) ->
                 toLowerCase k1 = toLowerCase k2 -> k1 = k2).
  { simpl. intros k1 k2 [<-|[<-|[]]] [<-|[<-|[]]]; simpl; intros H;
      first [reflexivity | discriminate H]. }
  split; [exact Hinj|]. split; [reflexivity|].
  exact (camelizeObjectKeys_complete toLowerCase [(KStr "userId", VNum 1); (KStr "Name", VNum 2)]
           "Name" (VNum 2) Hinj eq_refl).
Defined.

(** ** Induction on nested values *)

Lemma value_ind' (P : value -> Prop) :
  P VUndef -> P VNull -> (forall b, P (VBool b)) -> (forall n, P (VNum n)) ->
  (forall s, P (VStr s)) ->
  (forall o, Forall (fun kv => P (snd kv)) o -> P (VObj o)) ->
  (forall xs, Forall P xs -> P (VArr xs)) ->
  (forall r, P (VInst r)) ->
  (forall r nat c, (forall x, c = Some x -> P x) -> P (VFun r nat c)) ->
  forall v, P v.
Proof.
  intros HU HN HB HZ HS HO HA HI HF. fix IH 1. intros v. destruct v.
  - exact HU.
  - exact HN.
  - apply HB.
  - apply HZ.
  - apply HS.
  - apply HO. revert props. fix IHl 1. intros [|[k x] rest]; constructor; [apply IH | apply IHl].
  - apply HA. revert elems. fix IHl 1. intros [|x rest]; constructor; [apply IH | apply IHl].
  - apply HI.
  - apply HF. destruct clone as [c|]; intros x [=<-]. apply IH.
Qed.

(** ** cloneDeep *)

Lemma clone_fixed_obj : forall onlyPlain o, clone_fixed onlyPlain (VObj o) ->
  str_entries o ++ sym_entries o = o /\ Forall (fun kv => clone_fixed onlyPlain (snd kv)) o.
Proof. intros onlyPlain o H. inversion H; subst; [auto | discriminate]. Qed.

Lemma clone_fixed_arr : forall onlyPlain xs, clone_fixed onlyPlain (VArr xs) ->
  Forall (clone_fixed onlyPlain) xs.
Proof. intros onlyPlain xs H. inversion H; subst; [auto | discriminate]. Qed.

Lemma clone_fixed_fun : forall onlyPlain r nat c, clone_fixed onlyPlain (VFun r nat c) ->
  onlyPlain = true \/ c = None \/ c = Some VUndef.
Proof. intros onlyPlain r nat c H. inversion H; subst; [auto | discriminate]. Qed.

Lemma baseClone_fixed : forall onlyPlain v,
  clone_fixed onlyPlain v -> baseClone onlyPlain false v = v.
Proof.
  intros onlyPlain v. induction v using value_ind'; intros Hv;
    try (simpl; destruct onlyPlain; reflexivity).
  - apply clone_fixed_obj in Hv as [Hord Hall]. simpl.
    replace (map (fun '(k, x) => (k, baseClone onlyPlain false x)) o) with o;
      [exact (f_equal VObj Hord)|].
    rewrite Forall_forall in H, Hall.
    rewrite <- (map_id o) at 1. apply map_ext_in. intros [k x] Hin.
    f_equal. symmetry. apply (H (k, x) Hin), (Hall (k, x) Hin).
  - apply clone_fixed_arr in Hv. simpl. f_equal. rewrite Forall_forall in H, Hv.
    rewrite <- (map_id xs) at 2. apply map_ext_in. intros x Hin. now apply H, Hv.
  - apply clone_fixed_fun in Hv.
    destruct Hv as [-> | [-> | ->]]; simpl; [reflexivity | destruct onlyPlain; reflexivity |].
    destruct onlyPlain; reflexivity.
Qed.

(** [cloneDeep] of plain data returns an equal value: plain objects (string
    keys listed first) and arrays are copied element by element, non-plain
    objects are shared, and functions are kept unless they have a [clone]
    method returning a value and [onlyPlain] is unset. *)
Theorem cloneDeep_plain_data : forall onlyPlain o,
  clone_fixed onlyPlain (VObj o) -> cloneDeep onlyPlain (VObj o) = VObj o.
Proof.
  intros onlyPlain o H. unfold cloneDeep. simpl truthy. cbv iota.
  change (baseClone onlyPlain true (VObj o)) with (baseClone onlyPlain false (VObj o)).
  now apply baseClone_fixed.
Qed.

Lemma cloneDeep_witness :
  clone_fixed false (VObj [(KStr "a", VArr [VNum 1; VFun 2 false None]);
                           (KSym (SymFor "eq"), VInst 3)]) /\
  cloneDeep false (VObj [(KStr "a", VArr [VNum 1; VFun 2 false None]);
                         (KSym (SymFor "eq"), VInst 3)])
  = VObj [(KStr "a", VArr [VNum 1; VFun 2 false None]); (KSym (SymFor "eq"), VInst 3)].
Proof.
  assert (H : clone_fixed false (VObj [(KStr "a", VArr [VNum 1; VFun 2 false None]);
                                      (KSym (SymFor "eq"), VInst 3)])).
  { apply cf_obj; [reflexivity|].
    constructor; [|constructor; [apply cf_inst | constructor]].
    apply cf_arr. constructor; [apply cf_prim; reflexivity|].
    constructor; [|constructor]. apply cf_fun. right. left. reflexivity. }
  split; [exact H | apply cloneDeep_plain_data, H].
Defined.

(** ** flattenObjectDeep *)

Lemma string_app_assoc : forall a b c : string,
  String.append (String.append a b) c = String.append a (String.append b c).
Proof. induction a as [|ch a IH]; intros b c; simpl; [reflexivity|]. now rewrite IH. Qed.

Lemma join_path_snoc : forall p k, p <> [] ->
  join_path (p ++ [k]) = String.append (join_path p) (String "." k).
Proof.
  unfold join_path. induction p as [|x p IH]; intros k Hp; [contradiction|].
  destruct p as [|y p]; [reflexivity|].
  change ((x :: y :: p) ++ [k]) with (x :: ((y :: p) ++ [k])).
  change (String.concat "." (x :: (y :: p) ++ [k]))
    with (String.append x (String.append "." (String.concat "." ((y :: p) ++ [k])))).
  rewrite IH by discriminate.
  change (String.concat "." (x :: y :: p))
    with (String.append x (String.append "." (String.concat "." (y :: p)))).
  now rewrite !string_app_assoc.
Qed.

Lemma append_dot_nonempty : forall a k, String.append a (String "." k) <> "".
Proof. intros [|c a] k; discriminate. Qed.

Lemma is_leaf_branch : forall x,
  (typeof_object x && negb (match x with VNull => true | _ => false end)) = false ->
  is_leaf x = true.
Proof. intros []; simpl; auto. Qed.

(** A leaf written into the accumulator keeps it sound. *)
Lemma flat_sound_set : forall root acc path x,
  flat_sound root acc -> path <> [] -> leaf_path root path x -> is_leaf x = true ->
  flat_sound root (set acc (KStr (join_path path)) x).
Proof.
  intros root acc path x Hacc Hp Hpath Hleaf k w Hk.
  destruct (key_eqb k (KStr (join_path path))) eqn:E.
  - apply key_eqb_eq in E. subst k. rewrite lookup_set_same in Hk. injection Hk as <-.
    now exists path.
  - rewrite lookup_set_other in Hk by (apply key_eqb_false_neq, E). now apply Hacc.
Qed.

(** Below a non-empty path, [flattenObject] only writes leaves of [v] under
    the dotted path extended with their own path in [v]. *)
Lemma flattenObject_sound : forall root v p acc,
  p <> [] -> join_path p <> "" ->
  (forall q l, leaf_path v q l -> leaf_path root (p ++ q) l) ->
  flat_sound root acc -> flat_sound root (flattenObject v (Some (join_path p)) acc).
Proof.
  intros root v. induction v using value_ind'; intros p acc Hp Hj Hpath Hacc;
    try exact Hacc.
  - (* plain object *)
    simpl. assert (Htr : negb (join_path p =? "") = true).
    { destruct (join_path p =? "") eqn:E; [apply String.eqb_eq in E; contradiction | reflexivity]. }
    rewrite Htr. rewrite Forall_forall in H.
    revert acc Hacc. remember o as es eqn:Hes in |- *.
    assert (Hincl : incl es o) by (subst es; intros y Hy; exact Hy). clear Hes.
    induction es as [|[[k|k] x] rest IHes]; intros acc Hacc; [exact Hacc| |].
    + assert (Hin : In (KStr k, x) o) by (apply Hincl; now left).
      apply IHes; [intros y Hy; apply Hincl; now right|].
      rewrite <- join_path_snoc by exact Hp.
      destruct (typeof_object x && negb _) eqn:Eb.
      * apply (H (KStr k, x) Hin); [destruct p; discriminate | rewrite join_path_snoc by exact Hp; apply append_dot_nonempty | |exact Hacc].
        intros q l Hq. rewrite <- app_assoc. apply Hpath. econstructor; [exact Hin | exact Hq].
      * apply flat_sound_set; [exact Hacc | destruct p; discriminate | | now apply is_leaf_branch].
        apply Hpath. econstructor; [exact Hin | constructor].
    + apply IHes; [intros y Hy; apply Hincl; now right | exact Hacc].
  - (* array *)
    simpl. assert (Htr : negb (join_path p =? "") = true).
    { destruct (join_path p =? "") eqn:E; [apply String.eqb_eq in E; contradiction | reflexivity]. }
    rewrite Htr. rewrite Forall_forall in H.
    revert acc Hacc. remember xs as es eqn:Hes in |- *.
    assert (Hpos : forall j y, nth_error es j = Some y -> nth_error xs (0 + j) = Some y)
      by (subst es; auto).
    clear Hes. revert Hpos. generalize 0 as i.
    induction es as [|x rest IHes]; intros i Hpos acc Hacc; [exact Hacc|].
    assert (Hx : nth_error xs i = Some x) by (rewrite <- (Nat.add_0_r i); apply (Hpos 0 x); reflexivity).
    assert (Hin : In x xs) by (eapply nth_error_In, Hx).
    apply IHes.
    { intros j y Hy. replace (S i + j) with (i + S j) by lia. apply (Hpos (S j)), Hy. }
    rewrite <- join_path_snoc by exact Hp.
    destruct (typeof_object x && negb _) eqn:Eb.
    + apply (H x Hin); [destruct p; discriminate | rewrite join_path_snoc by exact Hp; apply append_dot_nonempty | |exact Hacc].
      intros q l Hq. rewrite <- app_assoc. apply Hpath. econstructor; [exact Hx | exact Hq].
    + apply flat_sound_set; [exact Hacc | destruct p; discriminate | | now apply is_leaf_branch].
      apply Hpath. econstructor; [exact Hx | constructor].
Qed.

(** When no property of the root with an object value has the empty name,
    every property of [flattenObjectDeep(value)] is a leaf of [value] (not a
    non-null object) stored under the dot-joined path that leads to it. *)
Theorem flattenObjectDeep_sound : forall o,
  (forall x, In (KStr "", x) o -> is_leaf x = true) ->
  exists r, flattenObjectDeep (VObj o) = VObj r /\ flat_sound (VObj o) r.
Proof.
  intros o Hroot. eexists. split; [reflexivity|]. simpl.
  assert (Hacc : flat_sound (VObj o) []) by (intros k w Hk; discriminate).
  revert Hacc. generalize (@nil (key * value)) as acc.
  remember (VObj o) as root eqn:Hr. remember o as es eqn:Hes in |- *.
  assert (Hincl : incl es o) by (subst es; intros y Hy; exact Hy). clear Hes. subst root.
  induction es as [|[[k|k] x] rest IHes]; intros acc Hacc; [exact Hacc| |].
  - assert (Hin : In (KStr k, x) o) by (apply Hincl; now left).
    apply IHes; [intros y Hy; apply Hincl; now right|].
    change k with (join_path [k]) at 1 2.
    destruct (typeof_object x && negb _) eqn:Eb.
    + apply flattenObject_sound; [discriminate | | |exact Hacc].
      * intros Hk. unfold join_path in Hk. simpl in Hk. subst k. apply Hroot in Hin.
        destruct x; simpl in Eb, Hin; discriminate.
      * intros q l Hq. econstructor; [exact Hin | exact Hq].
    + apply flat_sound_set; [exact Hacc | discriminate | | now apply is_leaf_branch].
      econstructor; [exact Hin | constructor].
  - apply IHes; [intros y Hy; apply Hincl; now right | exact Hacc].
Qed.

Lemma flattenObjectDeep_witness :
  (forall x, In (KStr "", x) [(KStr "a", VObj [(KStr "b", VNum 1)])] -> is_leaf x = true) /\
  exists r, flattenObjectDeep (VObj [(KStr "a", VObj [(KStr "b", VNum 1)])]) = VObj r /\
            flat_sound (VObj [(KStr "a", VObj [(KStr "b", VNum 1)])]) r.
Proof.
  assert (H : forall x, In (KStr "", x) [(KStr "a", VObj [(KStr "b", VNum 1)])] -> is_leaf x = true).
  { simpl. intros x [[=]|[]]. }
  split; [exact H | apply flattenObjectDeep_sound, H].
Defined.

(** ** merge *)

Lemma merge_pair : forall a b,
  exists n, merge [a; b] = fold_left (mergeStep n) b (fold_left (mergeStep n) a []).
Proof. intros a b. eexists. reflexivity. Qed.

Lemma mergeStep_frame : forall n acc kv x,
  x <> fst kv -> lookup (mergeStep n acc kv) x = lookup acc x.
Proof.
  intros n acc [[k|s] v] x Hx; simpl in Hx; [|reflexivity]. unfold mergeStep.
  destruct v; try reflexivity;
    repeat match goal with
           | |- context [if ?c then _ else _] => destruct c
           | |- context [match ?x with _ => _ end] => destruct x
           end; apply lookup_set_other; exact Hx.
Qed.

Lemma mergeStep_local : forall n acc1 acc2 x v,
  lookup acc1 x = lookup acc2 x ->
  lookup (mergeStep n acc1 (x, v)) x = lookup (mergeStep n acc2 (x, v)) x.
Proof.
  intros n acc1 acc2 [k|s] v H; [|exact H]. unfold mergeStep.
  assert (Hg : get acc1 (KStr k) = get acc2 (KStr k)) by (unfold get; now rewrite H).
  destruct v; try exact H; cbv zeta; rewrite Hg;
    repeat match goal with
           | |- context [if ?c then _ else _] => destruct c
           | |- context [match ?x with _ => _ end] => destruct x
           end; rewrite !lookup_set_same; reflexivity.
Qed.

(** A fold whose steps only write their own key: the entry of [x] decides
    its final value. *)
Lemma fold_single_key (f : obj -> key * value -> obj) (x : key) :
  (forall acc kv y, y <> fst kv -> lookup (f acc kv) y = lookup acc y) ->
  (forall acc1 acc2 v, lookup acc1 x = lookup acc2 x ->
                       lookup (f acc1 (x, v)) x = lookup (f acc2 (x, v)) x) ->
  forall es acc v, NoDup (map fst es) -> In (x, v) es ->
  lookup (fold_left f es acc) x = lookup (f acc (x, v)) x.
Proof.
  intros Hframe Hlocal es. induction es as [|[k' v'] es IH]; intros acc v Hnd Hin;
    [contradiction|].
  simpl in Hnd. inversion Hnd as [|? ? Hnot Hnd']; subst. simpl.
  destruct Hin as [[=-> ->]|Hin].
  - apply (fold_frame f fst); [exact Hframe | exact Hnot].
  - assert (Hne : x <> k').
    { intros ->. apply Hnot. change k' with (fst (k', v)). now apply in_map. }
    rewrite (IH _ v Hnd' Hin). apply Hlocal, Hframe, Hne.
Qed.

Lemma merge_first_lookup : forall n a k,
  NoDup (map fst a) ->
  lookup (fold_left (mergeStep n) a []) (KStr k)
  = match lookup a (KStr k) with Some VUndef => None | r => r end.
Proof.
  intros n a k Hnd. destruct (lookup a (KStr k)) as [v|] eqn:E.
  - rewrite (fold_single_key (mergeStep n) (KStr k)) with (v := v);
      [| apply mergeStep_frame | intros; now apply mergeStep_local | exact Hnd | now apply lookup_In].
    destruct v; simpl; rewrite ?String.eqb_refl; reflexivity.
  - rewrite (fold_frame (mergeStep n) fst); [reflexivity | apply mergeStep_frame|].
    now apply lookup_None.
Qed.

(** A key that the later argument leaves undefined (or lacks) keeps the
    earlier argument's value; an undefined value is never stored. *)
Theorem merge_skips_undefined : forall (a b : obj) k,
  NoDup (map fst a) -> NoDup (map fst b) -> is_undefined (get b (KStr k)) = true ->
  lookup (merge [a; b]) (KStr k)
  = match lookup a (KStr k) with Some VUndef => None | r => r end.
Proof.
  intros a b k Hnda Hndb Hb. destruct (merge_pair a b) as [n ->].
  destruct (lookup b (KStr k)) as [w|] eqn:E.
  - unfold get in Hb. rewrite E in Hb. destruct w; try discriminate.
    rewrite (fold_single_key (mergeStep n) (KStr k)) with (v := VUndef);
      [| apply mergeStep_frame | intros; now apply mergeStep_local | exact Hndb | now apply lookup_In].
    apply merge_first_lookup, Hnda.
  - rewrite (fold_frame (mergeStep n) fst); [| apply mergeStep_frame | now apply lookup_None].
    apply merge_first_lookup, Hnda.
Qed.

Lemma merge_witness_undefined :
  NoDup (map fst [(KStr "a", VNum 1)]) /\ NoDup (map fst [(KStr "a", VUndef)]) /\
  is_undefined (get [(KStr "a", VUndef)] (KStr "a")) = true /\
  lookup (merge [[(KStr "a", VNum 1)]; [(KStr "a", VUndef)]]) (KStr "a") = Some (VNum 1).
Proof.
  assert (H1 : NoDup (map fst [(KStr "a", VNum 1)])) by (repeat constructor; simpl; tauto).
  assert (H2 : NoDup (map fst [(KStr "a", VUndef)])) by (repeat constructor; simpl; tauto).
  split; [exact H1|]. split; [exact H2|]. split; [reflexivity|].
  exact (merge_skips_undefined _ _ "a" H1 H2 eq_refl).
Defined.

(** The later argument's defined value replaces the earlier one, unless
    both are plain objects (merged recursively) or both arrays
    (concatenated). *)
Theorem merge_later_wins : forall (a b : obj) k w,
  NoDup (map fst a) -> NoDup (map fst b) ->
  lookup b (KStr k) = Some w -> w <> VUndef ->
  (isPlainObject (get a (KStr k)) && isPlainObject w) = false ->
  (isArray (get a (KStr k)) && isArray w) = false ->
  lookup (merge [a; b]) (KStr k) = Some w.
Proof.
  intros a b k w Hnda Hndb Hw Hdef Hobj Harr. destruct (merge_pair a b) as [n ->].
  rewrite (fold_single_key (mergeStep n) (KStr k)) with (v := w);
    [| apply mergeStep_frame | intros; now apply mergeStep_local | exact Hndb | now apply lookup_In].
  assert (Hcur : get (fold_left (mergeStep n) a []) (KStr k) = get a (KStr k)).
  { unfold get at 1. rewrite merge_first_lookup by exact Hnda. unfold get.
    destruct (lookup a (KStr k)) as [[]|]; reflexivity. }
  set (A := fold_left (mergeStep n) a []) in *. clearbody A. unfold mergeStep. destruct w; try congruence; cbv zeta; rewrite Hcur;
    destruct (get a (KStr k)); simpl in Hobj, Harr; try discriminate;
    repeat match goal with
           | |- context [if ?c then _ else _] => destruct c
           end; apply lookup_set_same.
Qed.

Lemma merge_witness_later :
  NoDup (map fst [(KStr "a", VNum 1)]) /\ NoDup (map fst [(KStr "a", VStr "x")]) /\
  lookup [(KStr "a", VStr "x")] (KStr "a") = Some (VStr "x") /\ VStr "x" <> VUndef /\
  lookup (merge [[(KStr "a", VNum 1)]; [(KStr "a", VStr "x")]]) (KStr "a") = Some (VStr "x").
Proof.
  assert (H1 : NoDup (map fst [(KStr "a", VNum 1)])) by (repeat constructor; simpl; tauto).
  assert (H2 : NoDup (map fst [(KStr "a", VStr "x")])) by (repeat constructor; simpl; tauto).
  split; [exact H1|]. split; [exact H2|]. split; [reflexivity|]. split; [discriminate|].
  apply merge_later_wins; [exact H1 | exact H2 | reflexivity | discriminate | reflexivity | reflexivity].
Defined.

(** Two arrays under the same key are concatenated, the later argument's
    elements first. *)
Theorem merge_concat_arrays : forall (a b : obj) k xs ys,
  NoDup (map fst a) -> NoDup (map fst b) ->
  lookup a (KStr k) = Some (VArr xs) -> lookup b (KStr k) = Some (VArr ys) ->
  lookup (merge [a; b]) (KStr k) = Some (VArr (ys ++ xs)).
Proof.
  intros a b k xs ys Hnda Hndb Ha Hb. destruct (merge_pair a b) as [n ->].
  rewrite (fold_single_key (mergeStep n) (KStr k)) with (v := VArr ys);
    [| apply mergeStep_frame | intros; now apply mergeStep_local | exact Hndb | now apply lookup_In].
  assert (Hcur : get (fold_left (mergeStep n) a []) (KStr k) = VArr xs).
  { unfold get. rewrite merge_first_lookup by exact Hnda. now rewrite Ha. }
  set (A := fold_left (mergeStep n) a []) in *. clearbody A. unfold mergeStep. cbv zeta. rewrite Hcur. simpl. apply lookup_set_same.
Qed.

Lemma merge_witness_arrays :
  NoDup (map fst [(KStr "a", VArr [VNum 1])]) /\ NoDup (map fst [(KStr "a", VArr [VNum 2])]) /\
  lookup (merge [[(KStr "a", VArr [VNum 1])]; [(KStr "a", VArr [VNum 2])]]) (KStr "a")
  = Some (VArr [VNum 2; VNum 1]).
Proof.
  assert (H1 : NoDup (map fst [(KStr "a", VArr [VNum 1])])) by (repeat constructor; simpl; tauto).
  assert (H2 : NoDup (map fst [(KStr "a", VArr [VNum 2])])) by (repeat constructor; simpl; tauto).
  split; [exact H1|]. split; [exact H2|].
  exact (merge_concat_arrays _ _ "a" [VNum 1] [VNum 2] H1 H2 eq_refl eq_refl).
Defined.

(** ** mergeDefaults *)

Lemma assignMergeValue_frame : forall r s w,
  exists r', assignMergeValue (VObj r) (PName s) w = VObj r' /\
             forall x, x <> KStr s -> lookup r' x = lookup r x.
Proof.
  intros r s w. unfold assignMergeValue.
  destruct w; try (eexists; split; [reflexivity | intros x Hx; now apply lookup_set_other]).
  destruct (chas (VObj r) (PName s)); [now exists r|].
  eexists; split; [reflexivity | intros x Hx; now apply lookup_set_other].
Qed.

(** One key of the source, seen from the other keys. *)
Lemma mergeKey_frame : forall sub r s sv,
  exists r', (if isObject sv then baseMergeDeep sub (VObj r) (PName s) sv
              else mergePrimitive (VObj r) (PName s) sv) = VObj r' /\
             forall x, x <> KStr s -> lookup r' x = lookup r x.
Proof.
  intros sub r s sv. destruct (isObject sv); [unfold baseMergeDeep | unfold mergePrimitive];
    destruct (mergeDefaultsCustomizer _ _); try apply assignMergeValue_frame;
    destruct sv; apply assignMergeValue_frame.
Qed.




(** A key [a] lacks receives [b]'s value when that value is not an object. *)
Theorem mergeDefaults_fills_absent : forall a b k w,
  NoDup (map fst b) -> lookup a (KStr k) = None -> lookup b (KStr k) = Some w ->
  isObject w = false ->
  exists r, mergeDefaults a b = VObj r /\ lookup r (KStr k) = Some w.
Proof.
  intros a b k w Hnd Ha Hb Hw. unfold mergeDefaults. simpl.
  assert (Hin : In (KStr k, w) b) by (apply lookup_In, Hb).
  assert (H0 : exists r, VObj a = VObj r /\
                 ((lookup r (KStr k) = None /\ In (KStr k, w) b) \/
                  (lookup r (KStr k) = Some w /\ ~ In (KStr k) (map fst b)))) by eauto.
  clear Hb Hin Ha. revert H0. generalize (VObj a) as t.
  induction b as [|[[s|s] sv] rest IH]; intros t [r [-> Hr]].
  - destruct Hr as [[_ []] | [Hr _]]. now exists r.
  - simpl in Hnd. inversion Hnd as [|? ? Hnot Hnd']; subst.
    apply IH; [exact Hnd'|]. destruct (String.eqb s k) eqn:E.
    + apply String.eqb_eq in E. subst s.
      destruct Hr as [[Hr [[=<-]|Hin]] | [_ Hr]];
        [| exfalso; apply Hnot; change (KStr k) with (fst (KStr k, w)); now apply in_map
         | exfalso; apply Hr; now left].
      rewrite Hw. unfold mergePrimitive. cbv zeta.
      assert (Hg : cget (VObj r) (PName k) = VUndef) by (simpl; unfold get; now rewrite Hr).
      rewrite Hg. simpl mergeDefaultsCustomizer. cbv iota.
      unfold assignMergeValue.
      destruct sv; try discriminate;
        try (eexists; split; [reflexivity | right; split; [apply lookup_set_same | exact Hnot]]).
      simpl chas. rewrite Hr. eexists; split; [reflexivity | right; split; [apply lookup_set_same | exact Hnot]].
    + apply String.eqb_neq in E.
      destruct (mergeKey_frame (fun nv => baseMerge nv sv) r s sv) as [r' [Heq Hfr]].
      rewrite Heq. exists r'. split; [reflexivity|]. rewrite Hfr by congruence.
      destruct Hr as [[Hr [[=]|Hin]] | [Hr Hnin]]; [congruence | left; auto | right; split; [exact Hr|]].
      intros Hin. apply Hnin. now right.
  - apply IH; [simpl in Hnd; now inversion Hnd|]. exists r. split; [reflexivity|].
    destruct Hr as [[Hr [[=]|Hin]] | [Hr Hnin]]; [left; auto | right; split; [exact Hr|]].
    intros Hin. apply Hnin. now right.
Qed.

Lemma mergeDefaults_witness_fills :
  NoDup (map fst [(KStr "a", VNum 2)]) /\ lookup [] (KStr "a") = None /\
  lookup [(KStr "a", VNum 2)] (KStr "a") = Some (VNum 2) /\ isObject (VNum 2) = false /\
  exists r, mergeDefaults [] [(KStr "a", VNum 2)] = VObj r /\ lookup r (KStr "a") = Some (VNum 2).
Proof.
  assert (H1 : NoDup (map fst [(KStr "a", VNum 2)])) by (repeat constructor; simpl; tauto).
  split; [exact H1|]. split; [reflexivity|]. split; [reflexivity|]. split; [reflexivity|].
  apply mergeDefaults_fills_absent; [exact H1 | reflexivity | reflexivity | reflexivity].
Defined.

(** ** mapWhereFieldNames *)

Lemma objectKeys_app : forall l1 l2, objectKeys (l1 ++ l2) = objectKeys l1 ++ objectKeys l2.
Proof. intros. apply flat_map_app. Qed.

Lemma ownSymbols_app : forall l1 l2, ownSymbols (l1 ++ l2) = ownSymbols l1 ++ ownSymbols l2.
Proof. intros. apply flat_map_app. Qed.

Lemma objectKeys_split : forall l,
  objectKeys (str_entries l) = objectKeys l /\ objectKeys (sym_entries l) = [] /\
  ownSymbols (str_entries l) = [] /\ ownSymbols (sym_entries l) = ownSymbols l.
Proof.
  unfold objectKeys, ownSymbols.
  induction l as [|[[s|s] v] rest IH]; simpl; [tauto| |];
    destruct IH as [H1 [H2 [H3 H4]]]; rewrite ?H1, ?H2, ?H3, ?H4; auto.
Qed.

Lemma objectKeys_map_values : forall (f : value -> value) l,
  objectKeys (map (fun '(k, x) => (k, f x)) l) = objectKeys l /\
  ownSymbols (map (fun '(k, x) => (k, f x)) l) = ownSymbols l.
Proof.
  unfold objectKeys, ownSymbols.
  induction l as [|[[s|s] v] rest IH]; simpl; [tauto| |]; destruct IH as [H1 H2];
    rewrite ?H1, ?H2; auto.
Qed.

(** The clone taken by [mapWhereObj] has the keys of its input... *)
Lemma getComplexKeys_clone : forall o,
  getComplexKeys (str_entries (map (fun '(k, x) => (k, baseClone false false x)) o) ++
                  sym_entries (map (fun '(k, x) => (k, baseClone false false x)) o))
  = getComplexKeys o.
Proof.
  intros o. unfold getComplexKeys, getOperators.
  rewrite objectKeys_app, ownSymbols_app.
  destruct (objectKeys_split (map (fun '(k, x) => (k, baseClone false false x)) o))
    as [H1 [H2 [H3 H4]]].
  destruct (objectKeys_map_values (baseClone false false) o) as [H5 H6].
  rewrite H1, H2, H3, H4, H5, H6, app_nil_r. reflexivity.
Qed.

Lemma lookup_str_entries_str : forall l s, lookup (str_entries l) (KStr s) = lookup l (KStr s).
Proof. induction l as [|[[k|k] v] rest IH]; intros s; simpl; auto. destruct (s =? k)%string; auto. Qed.

Lemma lookup_sym_entries_str : forall l s, lookup (sym_entries l) (KStr s) = None.
Proof. induction l as [|[[k|k] v] rest IH]; intros s; simpl; auto. Qed.

(** ... and each of them holds the clone of the input's value. *)
Lemma lookup_clone : forall o x,
  lookup (str_entries (map (fun '(k, x) => (k, baseClone false false x)) o) ++
          sym_entries (map (fun '(k, x) => (k, baseClone false false x)) o)) x
  = option_map (baseClone false false) (lookup o x).
Proof.
  intros o [s|s]; rewrite lookup_app.
  - rewrite lookup_str_entries_str, lookup_map_values.
    destruct (lookup o (KStr s)); [reflexivity|]. apply lookup_sym_entries_str.
  - rewrite lookup_str_entries_sym, lookup_sym_entries_sym. apply lookup_map_values.
Qed.

Lemma mapWhereObj_S : forall n M o,
  mapWhereObj (S n) M o
  = fold_left (whereStep n M) (getComplexKeys o)
      (str_entries (map (fun '(k, x) => (k, baseClone false false x)) o) ++
       sym_entries (map (fun '(k, x) => (k, baseClone false false x)) o)).
Proof.
  intros n M o. rewrite <- (getComplexKeys_clone o). reflexivity.
Qed.

Lemma mapWhereFieldNames_VObj : forall o M,
  exists n, mapWhereFieldNames (VObj o) M = Some (VObj (mapWhereObj (S n) M o)).
Proof. intros o M. eexists. reflexivity. Qed.

(** The step for [attributeName] writes only [attributeName] and, when it
    renames it, the column name. *)
Lemma whereStep_frame : forall n M a kk x,
  x <> kk ->
  (forall r, rawAttrKey M kk = Some r -> opt_str_eqb (field r) (fieldName r) = false ->
             field_key r <> x) ->
  lookup (whereStep n M a kk) x = lookup a x.
Proof.
  intros n M a kk x Hx Hfk. unfold whereStep.
  assert (H1 : lookup (renameStep M a kk) x = lookup a x).
  { unfold renameStep. destruct (rawAttrKey M kk) as [r|] eqn:Er; [|reflexivity].
    destruct (opt_str_eqb (field r) (fieldName r)) eqn:Ef; simpl; [reflexivity|].
    rewrite lookup_del_other by exact Hx. apply lookup_set_other.
    intros Heq. apply (Hfk r); auto. }
  set (a1 := renameStep M a kk) in *.
  assert (H2 : lookup (recurseStep n M a1 kk) x = lookup a1 x).
  { unfold recurseStep. destruct (_ && _); [now apply lookup_set_other | reflexivity]. }
  set (a2 := recurseStep n M a1 kk) in *. unfold arrayStep.
  destruct (isArray (get a2 kk)); [|congruence].
  apply (fold_left_inv (fun b => lookup b x = lookup a x)); [|congruence].
  intros b i Hb. destruct (get b (KStr (string_of_nat i))); try exact Hb.
  rewrite lookup_set_other by exact Hx. exact Hb.
Qed.

(** The step for a renamed key moves its value to the column name. *)
Lemma whereStep_rename : forall n M a kk r cv,
  rawAttrKey M kk = Some r -> opt_str_eqb (field r) (fieldName r) = false ->
  field_key r <> kk -> lookup a kk = Some cv ->
  lookup (whereStep n M a kk) kk = None /\ lookup (whereStep n M a kk) (field_key r) = Some cv.
Proof.
  intros n M a kk r cv Er Ef Hne Ha. unfold whereStep, renameStep. rewrite Er, Ef. simpl negb.
  cbv iota.
  set (a1 := del (set a (field_key r) (get a kk)) kk).
  assert (H1 : lookup a1 kk = None) by apply lookup_del_same.
  assert (H2 : lookup a1 (field_key r) = Some cv).
  { unfold a1. rewrite lookup_del_other by exact Hne. rewrite lookup_set_same.
    unfold get. now rewrite Ha. }
  assert (Hg : get a1 kk = VUndef) by (unfold get; now rewrite H1).
  clearbody a1. unfold recurseStep. rewrite Hg. cbv zeta. cbn [isPlainObject andb].
  unfold arrayStep. rewrite Hg. cbn [isArray]. auto.
Qed.

(** A key naming an attribute stored in another column is renamed: the
    result has no property under the attribute name, and the column name
    holds the (deep-cloned, not rewritten) value.  The other keys of the
    input must not be, or be renamed to, either name. *)
Theorem mapWhereFieldNames_renames_key : forall M o k v r,
  NoDup (map fst o) -> lookup o (KStr k) = Some v ->
  rawAttr M k = Some r -> opt_str_eqb (field r) (fieldName r) = false ->
  lookup o (field_key r) = None ->
  (forall k' r', In k' (map fst o) -> k' <> KStr k -> rawAttrKey M k' = Some r' ->
                 opt_str_eqb (field r') (fieldName r') = false ->
                 field_key r' <> KStr k /\ field_key r' <> field_key r) ->
  exists res, mapWhereFieldNames (VObj o) M = Some (VObj res) /\
              lookup res (KStr k) = None /\
              lookup res (field_key r) = Some (baseClone false false v).
Proof.
  intros M o k v r Hnd Hv Hr Hf Hfree Hothers.
  destruct (mapWhereFieldNames_VObj o M) as [n ->]. eexists. split; [reflexivity|].
  rewrite mapWhereObj_S.
  assert (Hin : In (KStr k) (getComplexKeys o)).
  { apply in_getComplexKeys. split; [|exact I].
    change (KStr k) with (fst (KStr k, v)). apply in_map, lookup_In, Hv. }
  assert (Hfnot : ~ In (field_key r) (map fst o)) by (apply lookup_None, Hfree).
  assert (Hne : field_key r <> KStr k).
  { intros Heq. apply Hfnot. rewrite Heq. change (KStr k) with (fst (KStr k, v)).
    apply in_map, lookup_In, Hv. }
  destruct (nodup_split _ _ (getComplexKeys_nodup _ Hnd) Hin) as [pre [post [Heq [Hpre Hpost]]]].
  rewrite Heq, fold_left_app. cbn [fold_left].
  (* the keys other than k leave both names alone *)
  assert (Hkeep : forall a kk, In kk (pre ++ post) ->
            lookup (whereStep n M a kk) (KStr k) = lookup a (KStr k) /\
            lookup (whereStep n M a kk) (field_key r) = lookup a (field_key r)).
  { intros a kk Hkk.
    assert (Hkk' : In kk (getComplexKeys o)) by (rewrite Heq; apply in_app_iff in Hkk;
                                                  apply in_app_iff; simpl; tauto).
    apply in_getComplexKeys in Hkk' as [Hkk' _].
    assert (Hkk_k : kk <> KStr k) by (intros ->; apply in_app_iff in Hkk; tauto).
    split; apply whereStep_frame.
    - congruence.
    - intros r' Er' Ef'. apply (proj1 (Hothers kk r' Hkk' Hkk_k Er' Ef')).
    - intros Hfe. rewrite <- Hfe in Hkk'. contradiction.
    - intros r' Er' Ef'. apply (proj2 (Hothers kk r' Hkk' Hkk_k Er' Ef')). }
  set (A0 := str_entries _ ++ sym_entries _).
  assert (HA0 : lookup A0 (KStr k) = Some (baseClone false false v) /\ lookup A0 (field_key r) = None).
  { unfold A0. rewrite !lookup_clone, Hv, Hfree. split; reflexivity. }
  assert (HA1 : lookup (fold_left (whereStep n M) pre A0) (KStr k) = Some (baseClone false false v) /\
                lookup (fold_left (whereStep n M) pre A0) (field_key r) = None).
  { apply (fold_left_inv_in (fun a => lookup a (KStr k) = Some (baseClone false false v) /\
                                       lookup a (field_key r) = None)); [|exact HA0].
    intros a kk Hkk [Ha1 Ha2]. destruct (Hkeep a kk) as [Hk1 Hk2]; [apply in_app_iff; auto|].
    rewrite Hk1, Hk2. auto. }
  destruct HA1 as [HA1 _].
  destruct (whereStep_rename n M (fold_left (whereStep n M) pre A0) (KStr k) r
              (baseClone false false v) Hr Hf Hne HA1) as [H1 H2].
  apply (fold_left_inv_in (fun a => lookup a (KStr k) = None /\
                                     lookup a (field_key r) = Some (baseClone false false v)));
    [|auto].
  intros a kk Hkk [Ha1 Ha2]. destruct (Hkeep a kk) as [Hk1 Hk2]; [apply in_app_iff; auto|].
  rewrite Hk1, Hk2. auto.
Qed.

Lemma mapWhereFieldNames_witness_rename :
  NoDup (map fst [(KStr "a", VNum 1); (KStr "b", VNum 2)]) /\
  lookup [(KStr "a", VNum 1); (KStr "b", VNum 2)] (KStr "a") = Some (VNum 1) /\
  exists res, mapWhereFieldNames (VObj [(KStr "a", VNum 1); (KStr "b", VNum 2)]) exampleModel
              = Some (VObj res) /\
              lookup res (KStr "a") = None /\ lookup res (KStr "a_col") = Some (VNum 1).
Proof.
  assert (Hnd : NoDup (map fst [(KStr "a", VNum 1); (KStr "b", VNum 2)])).
  { simpl. constructor; [simpl; intros [[=]|[]] | constructor; [simpl; tauto | constructor]]. }
  split; [exact Hnd|]. split; [reflexivity|].
  apply (mapWhereFieldNames_renames_key exampleModel [(KStr "a", VNum 1); (KStr "b", VNum 2)]
           "a" (VNum 1) {| field := Some "a_col"; fieldName := Some "a"; type := STRING_type |}
           Hnd eq_refl eq_refl eq_refl eq_refl).
  intros k' r' Hin Hk' Er' Ef'. simpl in Hin.
  destruct Hin as [<-|[<-|[]]]; [congruence|].
  simpl in Er'. injection Er' as <-. split; discriminate.
Defined.

(** The symbol keys of a where object survive: the result has exactly the
    input's symbol keys, and a symbol that is not an operator keeps the
    (deep-cloned) value it had. *)
Theorem mapWhereFieldNames_symbol_keys : forall M o,
  exists res, mapWhereFieldNames (VObj o) M = Some (VObj res) /\
    (forall s, lookup res (KSym s) = None <-> lookup o (KSym s) = None) /\
    (forall s, operatorsSet_has s = false ->
               lookup res (KSym s) = option_map (baseClone false false) (lookup o (KSym s))).
Proof.
  intros M o. destruct (mapWhereFieldNames_VObj o M) as [n ->]. eexists. split; [reflexivity|].
  rewrite mapWhereObj_S.
  set (A0 := str_entries _ ++ sym_entries _).
  assert (HA0 : forall x, lookup A0 x = option_map (baseClone false false) (lookup o x))
    by apply lookup_clone.
  assert (Hfk : forall s kk r, rawAttrKey M kk = Some r -> field_key r <> KSym s).
  { intros s kk r _. unfold field_key. destruct (field r); discriminate. }
  split.
  - intros s.
    assert (Hstep : forall a kk, lookup (whereStep n M a kk) (KSym s) = None <->
                                 lookup a (KSym s) = None).
    { intros a kk. destruct (key_eqb (KSym s) kk) eqn:E.
      - apply key_eqb_eq in E. subst kk.
        unfold whereStep, renameStep. simpl rawAttrKey. cbv iota.
        unfold recurseStep, arrayStep. simpl rawAttrKey. cbv iota.
        destruct (lookup a (KSym s)) as [w|] eqn:Ea.
        + split; [|discriminate]. intros Hnone. exfalso. revert Hnone.
          set (a2 := if isPlainObject (get a (KSym s)) && negb false then _ else a).
          assert (Ha2 : lookup a2 (KSym s) <> None).
          { unfold a2. destruct (_ && _); [rewrite lookup_set_same | rewrite Ea]; discriminate. }
          destruct (isArray (get a2 (KSym s))); [|exact Ha2].
          apply (fold_left_inv (fun b => lookup b (KSym s) <> None)); [|exact Ha2].
          intros b i Hb. destruct (get b _); try exact Hb. rewrite lookup_set_same. discriminate.
        + split; [reflexivity|]. intros _.
          assert (Hg : get a (KSym s) = VUndef) by (unfold get; now rewrite Ea).
          rewrite Hg. simpl. rewrite Hg. simpl. exact Ea.
      - rewrite whereStep_frame; [reflexivity | now apply key_eqb_false_neq |].
        intros r Er _. eapply Hfk, Er. }
    assert (Hfold : forall l a, lookup (fold_left (whereStep n M) l a) (KSym s) = None <->
                                lookup a (KSym s) = None).
    { induction l as [|kk l IH]; intros a; simpl; [reflexivity|]. rewrite IH. apply Hstep. }
    rewrite Hfold, HA0. destruct (lookup o (KSym s)); simpl; split; congruence.
  - intros s Hs. rewrite <- HA0.
    apply (fold_left_inv_in (fun a => lookup a (KSym s) = lookup A0 (KSym s))); [|reflexivity].
    intros a kk Hkk Ha. rewrite whereStep_frame; [exact Ha| |].
    + intros Hks. subst kk. apply in_getComplexKeys in Hkk as [_ Hop]. congruence.
    + intros r Er _. eapply Hfk, Er.
Qed.

(** ** mapValueFieldNames *)

Lemma getProp_ok : forall v k, is_nullish v = false -> exists x, getProp v k = Ok x.
Proof.
  intros v k H. destruct v; try discriminate; simpl;
    try (destruct (String.eqb k "length"); [|destruct (index_of_key _ _)]);
    eexists; reflexivity.
Qed.

Lemma mapValueFieldNames_ok : forall dv fields M,
  is_nullish dv = false -> exists r, mapValueFieldNames dv fields M = Ok r.
Proof.
  intros dv fields M Hn. unfold mapValueFieldNames.
  apply (fold_left_inv (fun acc => exists a, acc = Ok a)); [|eexists; reflexivity].
  intros acc attr [a ->]. cbn [js_bind].
  destruct (getProp_ok dv attr Hn) as [x ->]. cbn [js_bind].
  destruct (_ && _); [|eexists; reflexivity].
  destruct (rawAttr M attr) as [r|]; [destruct (field r) as [f|]; [destruct (_ && _)|]|];
    eexists; reflexivity.
Qed.

(** [mapValueFieldNames] throws exactly when [dataValues] is [null] or
    [undefined] and there is at least one field to read: on any other value
    (a plain object, an array, a string, a number, ...) it returns. *)
Theorem mapValueFieldNames_throws_iff : forall dv fields M,
  (exists e, mapValueFieldNames dv fields M = Throw e) <-> (is_nullish dv = true /\ fields <> []).
Proof.
  intros dv fields M. split.
  - intros [e He]. destruct (is_nullish dv) eqn:En.
    + split; [reflexivity|]. intros ->. discriminate He.
    + destruct (mapValueFieldNames_ok dv fields M En) as [r Hr]. congruence.
  - intros [Hn Hf]. destruct fields as [|attr rest]; [congruence|].
    exists "TypeError"%string. unfold mapValueFieldNames. cbn [fold_left].
    destruct dv; try discriminate; apply fold_left_throw; reflexivity.
Qed.

(** ** combineTableNames *)

Lemma string_compare_refl : forall s, String.compare s s = Eq.
Proof.
  induction s as [|c s IH]; simpl; [reflexivity|].
  unfold Ascii.compare. rewrite N.compare_refl. exact IH.
Qed.

Lemma toLowerCase_length : forall s, String.length (toLowerCase s) = String.length s.
Proof. induction s as [|c s IH]; simpl; congruence. Qed.

Lemma string_app_same_length : forall a b c d : string,
  String.length a = String.length b -> (a ++ c)%string = (b ++ d)%string -> a = b.
Proof.
  induction a as [|x a IH]; intros [|y b] c d Hl He; simpl in *; try discriminate; [reflexivity|].
  injection He as -> He. f_equal. apply (IH b c d); congruence.
Qed.

(** When two different table names have the same lowercase form,
    [combineTableNames] is not commutative: it puts its second argument
    first, so swapping the arguments changes the result. *)
Theorem combineTableNames_same_lowercase : forall a b,
  toLowerCase a = toLowerCase b -> a <> b ->
  combineTableNames a b = (b ++ a)%string /\ combineTableNames a b <> combineTableNames b a.
Proof.
  intros a b Hl Hne. unfold combineTableNames.
  rewrite Hl, <- Hl. unfold String.ltb. rewrite !string_compare_refl. split; [reflexivity|].
  intros He. apply Hne. symmetry. apply (string_app_same_length b a a b); [|exact He].
  rewrite <- (toLowerCase_length a), <- (toLowerCase_length b). congruence.
Qed.

Lemma combineTableNames_witness :
  toLowerCase "Users" = toLowerCase "users" /\ "Users"%string <> "users"%string /\
  combineTableNames "Users" "users" = "usersUsers"%string /\
  combineTableNames "Users" "users" <> combineTableNames "users" "Users".
Proof.
  assert (Hl : toLowerCase "Users" = toLowerCase "users") by reflexivity.
  assert (Hne : "Users"%string <> "users"%string) by discriminate.
  split; [exact Hl|]. split; [exact Hne|].
  exact (combineTableNames_same_lowercase "Users" "users" Hl Hne).
Defined.

(** ** C5: mapOptionFieldNames writes into the options object it is given *)

Lemma hget_hset_same : forall {A : Type} (h : list (nat * A)) l x, hget (hset h l x) l = Some x.
Proof.
  induction h as [|[l0 y] rest IH]; intros l x; simpl; [now rewrite Nat.eqb_refl|].
  destruct (Nat.eqb l l0) eqn:E; simpl; rewrite E; [reflexivity | apply IH].
Qed.

Lemma hget_hset_other : forall {A : Type} (h : list (nat * A)) l l' x,
  l' <> l -> hget (hset h l x) l' = hget h l'.
Proof.
  induction h as [|[l0 y] rest IH]; intros l l' x Hne; simpl.
  - destruct (Nat.eqb l' l) eqn:E; [apply Nat.eqb_eq in E; contradiction | reflexivity].
  - destruct (Nat.eqb l l0) eqn:E; simpl.
    + apply Nat.eqb_eq in E. subst l0.
      destruct (Nat.eqb l' l) eqn:E'; [apply Nat.eqb_eq in E'; contradiction | reflexivity].
    + destruct (Nat.eqb l' l0); [reflexivity | now apply IH].
Qed.

Lemma hget_above : forall {A : Type} (h : list (nat * A)) l,
  list_max (map fst h) < l -> hget h l = None.
Proof.
  induction h as [|[l0 y] rest IH]; intros l Hl; simpl in *; [reflexivity|].
  destruct (Nat.eqb l l0) eqn:E; [apply Nat.eqb_eq in E; lia | apply IH; lia].
Qed.

Lemma hget_fresh : forall h, hget (hobjs h) (fresh h) = None.
Proof. intros h. apply hget_above. unfold fresh. lia. Qed.

Lemma fresh_ne : forall h lo, hget (hobjs h) lo <> None -> lo <> fresh h.
Proof. intros h lo H ->. apply H, hget_fresh. Qed.

Lemma deref_kept : forall h h' x,
  objs_kept h h' -> wf_hval h x -> deref h' x = deref h x /\ wf_hval h' x.
Proof.
  intros h h' [v|lo] Hk Hx; simpl in *; [auto|].
  destruct (hget (hobjs h) lo) as [v|] eqn:E; [|contradiction].
  rewrite (Hk lo v E). split; [reflexivity | discriminate].
Qed.

Lemma whereStep_at_fold : forall n M lc keys hh a,
  hget (hobjs hh) lc = Some (VObj a) ->
  hopts (fold_left (whereStep_at n M lc) keys hh) = hopts hh /\
  (forall lo, lo <> lc -> hget (hobjs (fold_left (whereStep_at n M lc) keys hh)) lo = hget (hobjs hh) lo) /\
  hget (hobjs (fold_left (whereStep_at n M lc) keys hh)) lc = Some (VObj (fold_left (whereStep n M) keys a)).
Proof.
  intros n M lc keys. induction keys as [|key keys IH]; intros hh a Ha; simpl; [auto|].
  assert (Hs : whereStep_at n M lc hh key
               = {| hopts := hopts hh; hobjs := hset (hobjs hh) lc (VObj (whereStep n M a key)) |})
    by (unfold whereStep_at; now rewrite Ha).
  rewrite Hs.
  destruct (IH {| hopts := hopts hh; hobjs := hset (hobjs hh) lc (VObj (whereStep n M a key)) |}
              (whereStep n M a key) (hget_hset_same _ _ _)) as [H1 [H2 H3]].
  split; [now rewrite H1|]. split; [|exact H3].
  intros lo Hlo. rewrite H2 by exact Hlo. simpl. now apply hget_hset_other.
Qed.

(** [mapWhereFieldNames] on the object at [lw] stores its result in a new
    object and changes nothing else. *)
Lemma mapWhereFieldNames_at_spec : forall h lw M o,
  hget (hobjs h) lw = Some (VObj o) ->
  exists h2, mapWhereFieldNames_at h lw M = (h2, HRef (fresh h)) /\ hopts h2 = hopts h /\
    (forall lo, lo <> fresh h -> hget (hobjs h2) lo = hget (hobjs h) lo) /\
    hget (hobjs h2) (fresh h) = Some (VObj (mapWhereObj (value_size (VObj o)) M o)).
Proof.
  intros h lw M o Hw. unfold mapWhereFieldNames_at. rewrite Hw.
  set (cl := map (fun '(k, x) => (k, baseClone false false x)) o).
  assert (Hc : cloneDeep false (VObj o) = VObj (str_entries cl ++ sym_entries cl)) by reflexivity.
  rewrite Hc. cbv zeta.
  destruct (whereStep_at_fold (Nat.pred (value_size (VObj o))) M (fresh h)
              (getComplexKeys (str_entries cl ++ sym_entries cl))
              {| hopts := hopts h; hobjs := hset (hobjs h) (fresh h) (VObj (str_entries cl ++ sym_entries cl)) |}
              _ (hget_hset_same _ _ _)) as [H1 [H2 H3]].
  eexists. split; [reflexivity|]. split; [exact H1|]. split.
  - intros lo Hlo. rewrite H2 by exact Hlo. simpl. now apply hget_hset_other.
  - rewrite H3. change (value_size (VObj o)) with (S (Nat.pred (value_size (VObj o)))) at 2.
    rewrite mapWhereObj_S. unfold cl. rewrite getComplexKeys_clone. reflexivity.
Qed.

Lemma mapAttributes_at_spec : forall h l M a w,
  hget (hopts h) l = Some (a, w) -> wf_hval h a ->
  exists a1, hget (hopts (mapAttributes_at h l M)) l = Some (a1, w) /\
    wf_hval (mapAttributes_at h l M) a1 /\
    deref (mapAttributes_at h l M) a1
      = match deref h a with VArr xs => VArr (map (mapAttr M) xs) | v => v end /\
    (forall l', l' <> l -> hget (hopts (mapAttributes_at h l M)) l' = hget (hopts h) l') /\
    objs_kept h (mapAttributes_at h l M).
Proof.
  intros h l M a w Hl Ha. unfold mapAttributes_at. rewrite Hl.
  destruct a as [v|la].
  - exists (HPrim v). split; [exact Hl|]. split; [exact Ha|].
    split; [|split; [reflexivity | intros lo v' H; exact H]].
    simpl in *. destruct v; try discriminate Ha; reflexivity.
  - simpl in Ha. destruct (hget (hobjs h) la) as [va|] eqn:Ea; [|contradiction].
    destruct va as [| | | | | |xs| |];
      try (exists (HRef la); cbn iota; split; [exact Hl|]; split; [simpl; congruence|];
           split; [simpl; rewrite Ea; reflexivity|];
           split; [reflexivity | intros lo v' H; exact H]).
    exists (HRef (fresh h)). simpl. rewrite Ea.
    split; [apply hget_hset_same|]. split; [rewrite hget_hset_same; discriminate|].
    split; [rewrite hget_hset_same; reflexivity|]. split.
    + intros l' Hne. now apply hget_hset_other.
    + intros lo v' H. simpl. rewrite hget_hset_other; [exact H|].
      apply fresh_ne. congruence.
Qed.

Lemma mapWhere_at_spec : forall h l M a w,
  hget (hopts h) l = Some (a, w) -> wf_hval h a -> wf_hval h w ->
  exists w', hget (hopts (mapWhere_at h l M)) l = Some (a, w') /\
    deref (mapWhere_at h l M) a = deref h a /\
    deref (mapWhere_at h l M) w'
      = match deref h w with VObj o => VObj (mapWhereObj (obj_size o) M o) | v => v end /\
    (forall l', l' <> l -> hget (hopts (mapWhere_at h l M)) l' = hget (hopts h) l') /\
    objs_kept h (mapWhere_at h l M).
Proof.
  intros h l M a w Hl Ha Hw. unfold mapWhere_at. rewrite Hl.
  destruct w as [v|lw].
  - exists (HPrim v). split; [exact Hl|]. split; [reflexivity|].
    split; [|split; [reflexivity | intros lo v' H; exact H]].
    simpl in *. destruct v; try discriminate Hw; reflexivity.
  - simpl in Hw. destruct (hget (hobjs h) lw) as [vw|] eqn:Ew; [|contradiction].
    destruct vw as [| | | | |o| | |];
      try (exists (HRef lw); split; [exact Hl|]; split; [reflexivity|];
           split; [simpl; rewrite Ew; reflexivity|];
           split; [reflexivity | intros lo v' H; exact H]).
    destruct (mapWhereFieldNames_at_spec h lw M o Ew) as [h2 [Hcall [Hopts [Hfr Hlc]]]].
    rewrite Hcall. exists (HRef (fresh h)). simpl.
    split; [apply hget_hset_same|]. split.
    + destruct a as [va|la]; [reflexivity|]. simpl. rewrite Hfr; [reflexivity|].
      apply fresh_ne, Ha.
    + split; [rewrite Hlc, Ew; reflexivity|]. split.
      * intros l' Hne. rewrite hget_hset_other by exact Hne. now rewrite Hopts.
      * intros lo v' H. rewrite Hfr; [exact H|]. apply fresh_ne. congruence.
Qed.

(** C5 (counterexample): the claim that the caller's objects are left
    unchanged fails for [mapOptionFieldNames]: after the call the caller's
    options object refers to new attributes and where values. *)
Lemma C5_mapOptionFieldNames_mutates_options :
  ~ (forall (h : heap) (l : nat) (M : model) (h' : heap) (r : nat),
       mapOptionFieldNames_at h l M = Some (h', r) -> hget (hopts h') l = hget (hopts h) l).
Proof.
  intros H. specialize (H optionsHeap 0 exampleModel).
  vm_compute in H. specialize (H _ _ eq_refl). discriminate H.
Qed.

(** C5 (amended): [mapOptionFieldNames] assigns the remapped attributes and
    where to the options object it is given and returns that same object.
    The new attributes array and where object are new objects of the store,
    holding what the pure [mapOptionFieldNames] computes from the old ones;
    every other options object and every object or array that existed
    before (the caller's attributes array and where object included) is
    left as it was. *)
Theorem C5_mapOptionFieldNames_in_place : forall (h : heap) (l : nat) (M : model) (a w : hval),
  hget (hopts h) l = Some (a, w) -> wf_hval h a -> wf_hval h w ->
  exists h' a' w',
    mapOptionFieldNames_at h l M = Some (h', l) /\
    hget (hopts h') l = Some (a', w') /\
    {| fo_attributes := deref h' a'; fo_where := deref h' w' |}
    = mapOptionFieldNames {| fo_attributes := deref h a; fo_where := deref h w |} M /\
    (forall l', l' <> l -> hget (hopts h') l' = hget (hopts h) l') /\
    objs_kept h h'.
Proof.
  intros h l M a w Hl Ha Hw.
  destruct (mapAttributes_at_spec h l M a w Hl Ha) as [a1 [Hl1 [Ha1 [Hd1 [Ho1 Hk1]]]]].
  set (h1 := mapAttributes_at h l M) in *.
  destruct (deref_kept h h1 w Hk1 Hw) as [Hdw Hw1].
  destruct (mapWhere_at_spec h1 l M a1 w Hl1 Ha1 Hw1) as [w' [Hl2 [Hd2 [Hdw2 [Ho2 Hk2]]]]].
  exists (mapWhere_at h1 l M), a1, w'.
  split; [unfold mapOptionFieldNames_at; now rewrite Hl|].
  split; [exact Hl2|]. split.
  - rewrite Hd2, Hd1, Hdw2, Hdw. reflexivity.
  - split.
    + intros l' Hne. rewrite Ho2 by exact Hne. now apply Ho1.
    + intros lo v H. apply Hk2, Hk1, H.
Qed.

Lemma C5_witness :
  hget (hopts optionsHeap) 0 = Some (HRef 1, HRef 2) /\
  wf_hval optionsHeap (HRef 1) /\ wf_hval optionsHeap (HRef 2) /\
  exists h' a' w', mapOptionFieldNames_at optionsHeap 0 exampleModel = Some (h', 0) /\
    hget (hopts h') 0 = Some (a', w') /\
    deref h' a' = VArr [VArr [VStr "a_col"; VStr "a"]] /\
    deref h' w' = VObj [(KStr "a_col", VNum 1)] /\
    hget (hobjs h') 1 = Some (VArr [VStr "a"]) /\
    hget (hobjs h') 2 = Some (VObj [(KStr "a", VNum 1)]).
Proof.
  assert (H1 : wf_hval optionsHeap (HRef 1)) by (simpl; discriminate).
  assert (H2 : wf_hval optionsHeap (HRef 2)) by (simpl; discriminate).
  split; [reflexivity|]. split; [exact H1|]. split; [exact H2|].
  destruct (C5_mapOptionFieldNames_in_place optionsHeap 0 exampleModel (HRef 1) (HRef 2)
              eq_refl H1 H2) as [h' [a' [w' [Hc [Hl [Hd [_ Hk]]]]]]].
  exists h', a', w'. split; [exact Hc|]. split; [exact Hl|].
  injection Hd as Ha Hw. rewrite Ha, Hw.
  split; [reflexivity|]. split; [reflexivity|].
  split; apply Hk; reflexivity.
Defined.
